(** * base8x: binary/ASCII conversion in radix 85 to 95

    A shallow embedding of [src/base8x.py] (Python 2) and the properties of
    its codec.  A Python 2 [str] is a byte string; binary data is modelled as
    [list byte], text (alphabet symbols, encoded output) as [list ascii].
    Python integers are unbounded and are modelled by [Z]; [//] and [%] are
    floor division and its remainder, which is what [Z.div] and [Z.modulo]
    compute for a non-zero divisor. *)

From Stdlib Require Import ZArith List Lia.
From Stdlib.Strings Require Import Ascii String Byte.
From stdpp Require Import base decidable option list gmap strings.

Local Open Scope Z_scope.

(** ** Exceptions and the error monad *)

(** The exceptions the module can raise.  The two [ValueError]s of
    [_get_num_by_seq_dec] carry the values formatted into their messages. *)
Inductive exn : Type :=
| InvalidAlphabet
| InvalidParameter
| IllegalCharacter (seq : list ascii) (char : ascii) (code : Z) (pos : Z)
| IllegalSequence (seq : list ascii) (val : Z)
| IndexError
| ZeroDivisionError
| StructError.

Inductive result (A : Type) : Type :=
| Ok (a : A)
| Raise (e : exn).
Arguments Ok {A} a.
Arguments Raise {A} e.

#[global] Instance result_ret : MRet result := λ A a, Ok a.
#[global] Instance result_bind : MBind result :=
  λ A B f m, match m with Ok a => f a | Raise e => Raise e end.

(** ** Python primitives used by the module *)

(** [ord(c)] of a one-character [str]. *)
Definition ord (c : ascii) : Z := Z.of_N (N_of_ascii c).

(** Printable ASCII: the code points 32 to 126. *)
Definition printable (c : ascii) : Prop := 32 ≤ ord c ≤ 126.

(** The symbol [c] stands at position (digit value) [p] of an alphabet. *)
Definition symbol_at (alphabet : list ascii) (p : Z) (c : ascii) : Prop :=
  0 ≤ p ∧ alphabet !! Z.to_nat p = Some c.

Definition byte_val (b : byte) : Z := Z.of_N (Byte.to_N b).

Definition byte_of_val (z : Z) : byte :=
  default x00 (Byte.of_N (Z.to_N z)).

(** [l[i]]: a negative index counts from the end, an index out of range
    raises [IndexError]. *)
Definition getitem {A} (l : list A) (i : Z) : result A :=
  let j := if i <? 0 then i + Z.of_nat (length l) else i in
  if j <? 0 then Raise IndexError
  else match l !! Z.to_nat j with
       | Some x => Ok x
       | None => Raise IndexError
       end.

(** [l[:stop]]: a negative [stop] counts from the end; the slice is clipped
    to the sequence and never raises. *)
Definition slice_to {A} (l : list A) (stop : Z) : list A :=
  if stop <? 0 then take (Z.to_nat (Z.of_nat (length l) + stop)) l
  else take (Z.to_nat stop) l.

Definition floordiv (a b : Z) : result Z :=
  if b =? 0 then Raise ZeroDivisionError else Ok (a / b).

Definition pymod (a b : Z) : result Z :=
  if b =? 0 then Raise ZeroDivisionError else Ok (a mod b).

Fixpoint enumerate_from {A} (start : Z) (l : list A) : list (Z * A) :=
  match l with
  | [] => []
  | x :: l' => (start, x) :: enumerate_from (start + 1) l'
  end.

Definition enumerate {A} (l : list A) : list (Z * A) := enumerate_from 0 l.

(** [dict(pairs)]: pairs are inserted in order, a later key overwrites. *)
Definition dict {K V} `{Countable K} (pairs : list (K * V)) : gmap K V :=
  fold_left (λ m kv, <[kv.1 := kv.2]> m) pairs ∅.

(** [struct.unpack(">1I", seq)[0]]: exactly four bytes, big-endian. *)
Definition struct_unpack_1I (seq : list byte) : result Z :=
  match seq with
  | [_; _; _; _] => Ok (fold_left (λ x b, x * 256 + byte_val b) seq 0)
  | _ => Raise StructError
  end.

(** [struct.pack(">1I", num)]: [num] must fit an unsigned 32-bit integer. *)
Definition struct_pack_1I (num : Z) : result (list byte) :=
  if (num <? 0) || (2 ^ 32 - 1 <? num) then Raise StructError
  else Ok [byte_of_val ((num / 2 ^ 24) mod 256);
           byte_of_val ((num / 2 ^ 16) mod 256);
           byte_of_val ((num / 2 ^ 8) mod 256);
           byte_of_val (num mod 256)].

(** ** The module *)

Definition _MAXVAL : Z := 2 ^ 32 - 1.

(** The [for item in seq] loop of [_chunkby]: the chunks yielded inside the
    loop, and [(tmp, count)] when the input is exhausted. *)
Fixpoint chunkby_loop {A} (stride : Z) (seq : list A) (tmp : list A) (count : Z)
  : list (list A * Z) * (list A * Z) :=
  match seq with
  | [] => ([], (tmp, count))
  | item :: seq' =>
      let tmp := tmp ++ [item] in
      let count := count + 1 in
      if count =? stride then
        let '(out, st) := chunkby_loop stride seq' [] 0 in
        ((tmp, 0) :: out, st)
      else chunkby_loop stride seq' tmp count
  end.

(** [_chunkby(seq, stride, padding)].  The generator is pure once the stride
    is checked, so the chunks it yields are modelled as the list of them. *)
Definition _chunkby {A} (seq : list A) (stride : Z) (padding : option A)
  : result (list (list A * Z)) :=
  if stride <=? 0 then Raise InvalidParameter
  else
    let '(out, (tmp, count)) := chunkby_loop stride seq [] 0 in
    if negb (count =? 0) then
      let npadding := stride - count in
      let tmp :=
        match padding with
        | Some p => tmp ++ replicate (Z.to_nat npadding) p
        | None => tmp
        end in
      Ok (out ++ [(tmp, npadding)])
    else Ok out.

(** The [for item in seq] loop of [_validate_alphabet]: [None] on the early
    return, the accepted characters otherwise. *)
Fixpoint validate_loop (seq : list ascii) (seen : gset ascii) (accept : list ascii)
  : option (list ascii) :=
  match seq with
  | [] => Some accept
  | item :: seq' =>
      if bool_decide (item ∈ seen)
         || negb ((32 <=? ord item) && (ord item <=? 126))
      then None
      else validate_loop seq' ({[item]} ∪ seen) (accept ++ [item])
  end.

Definition _validate_alphabet (seq : list ascii) : option (list ascii) :=
  match validate_loop seq ∅ [] with
  | None => None
  | Some accept =>
      if negb ((85 <=? Z.of_nat (length accept))
               && (Z.of_nat (length accept) <=? 95))
      then None
      else Some accept
  end.

(** The body of [codec_gen]'s loop, for one [(chunk, npadding)] of the
    chunker.  A chunk is a list of one-character strings, so
    [b"".join(chunk)] is the chunk itself. *)
Definition codec_gen_body {A B} (outchunksize : Z)
    (ingroup2num : list A → result Z) (num2outgroup : Z → result (list B))
    (item : list A * Z) : result (list B) :=
  let '(chunk, npadding) := item in
  val ← ingroup2num chunk;
  outgroup ← num2outgroup val;
  mret (slice_to outgroup (outchunksize - npadding)).

(** [codec_gen], the generator returned by [_codec_generator_factory].
    Chunks are converted in order and the first exception aborts the
    consumer ([mapM] stops at the first [Raise]). *)
Definition _codec_generator_factory {A B} (inchunksize outchunksize : Z)
    (padchar : A) (ingroup2num : list A → result Z)
    (num2outgroup : Z → result (list B))
  : list A → result (list (list B)) :=
  λ inputseq,
    chunked ← _chunkby inputseq inchunksize (Some padchar);
    mapM (codec_gen_body outchunksize ingroup2num num2outgroup) chunked.

Record Base8xCodec : Type := {
  _alphabet : list ascii;
  _radix : Z;
  _ordmap : gmap ascii Z;
  _powersofradix : list Z;
  _powersenum : list (Z * Z)
}.

(** [Base8xCodec.__init__]. *)
Definition Base8xCodec_init (alphabet : list ascii) : result Base8xCodec :=
  match _validate_alphabet alphabet with
  | None => Raise InvalidAlphabet
  | Some alphabet' =>
      let radix := Z.of_nat (length alphabet') in
      let powersofradix := map (λ p, radix ^ p) [4; 3; 2; 1; 0] in
      Ok {| _alphabet := alphabet';
            _radix := radix;
            _ordmap := dict (map (λ ic, (ic.2, ic.1)) (enumerate alphabet'));
            _powersofradix := powersofradix;
            _powersenum := enumerate powersofradix |}
  end.

Definition _get_num_by_seq_enc (seq : list byte) : result Z :=
  struct_unpack_1I seq.

Definition _encode_quartet (self : Base8xCodec) (num : Z) : result (list ascii) :=
  mapM (λ offset,
          q ← floordiv num offset;
          d ← pymod q (_radix self);
          getitem (_alphabet self) d)
       (_powersofradix self).

(** The [for i, offset in self._powersenum] loop of [_get_num_by_seq_dec]. *)
Fixpoint get_num_loop (self : Base8xCodec) (seq : list ascii)
    (powersenum : list (Z * Z)) (val : Z) : result Z :=
  match powersenum with
  | [] => Ok val
  | (i, offset) :: rest =>
      char ← getitem seq i;
      match _ordmap self !! char with
      | None => Raise (IllegalCharacter seq char (ord char) i)
      | Some pos => get_num_loop self seq rest (val + pos * offset)
      end
  end.

Definition _get_num_by_seq_dec (self : Base8xCodec) (seq : list ascii) : result Z :=
  val ← get_num_loop self seq (_powersenum self) 0;
  if _MAXVAL <? val then Raise (IllegalSequence seq val) else Ok val.

Definition _decode_quintet (num : Z) : result (list byte) :=
  struct_pack_1I num.

Definition _make_encode_gen (self : Base8xCodec)
  : list byte → result (list (list ascii)) :=
  _codec_generator_factory 4 5 x00 _get_num_by_seq_enc (_encode_quartet self).

Definition _make_decode_gen (self : Base8xCodec)
  : result (list ascii → result (list (list byte))) :=
  padchar ← getitem (_alphabet self) (-1);
  mret (_codec_generator_factory 5 4 padchar
          (_get_num_by_seq_dec self) _decode_quintet).

Definition encode (self : Base8xCodec) (text : list byte) : result (list ascii) :=
  let encoder := _make_encode_gen self in
  groups ← encoder text;
  mret (concat groups).

Definition decode (self : Base8xCodec) (text : list ascii) : result (list byte) :=
  decoder ← _make_decode_gen self;
  groups ← decoder text;
  mret (concat groups).

(** The module-level instance [z85codec]. *)
Definition z85codec : result Base8xCodec :=
  Base8xCodec_init
    (list_ascii_of_string
       ("0123456789abcdefghijklmnopqrstuvwxyz"
        ++ "ABCDEFGHIJKLMNOPQRSTUVWXYZ"
        ++ ".-:+=^!/*?&<>()[]{}@%$#")).

(** The codec of the module's doctests:
    [Base8xCodec(chr(x) for x in xrange(33, 33 + 85))]. *)
Definition adobe85codec : result Base8xCodec :=
  Base8xCodec_init (map ascii_of_nat (seq 33 85)).

(** The Z85 alphabet as the specification words it: the digits, the
    lowercase letters, the uppercase letters, then the symbols it lists. *)
Definition spec_z85_symbols : list ascii :=
  ["."; "-"; ":"; "+"; "="; "^"; "!"; "/"; "*"; "?"; "&"; "<"; ">";
   "("; ")"; "["; "]"; "{"; "}"; "@"; "%"; "$"; "#"]%char.

Definition spec_z85_alphanumerics : list ascii :=
  map ascii_of_nat (seq 48 10)        (* 0-9 *)
  ++ map ascii_of_nat (seq 97 26)     (* a-z *)
  ++ map ascii_of_nat (seq 65 26).    (* A-Z *)

Definition spec_z85_alphabet : list ascii :=
  spec_z85_alphanumerics ++ spec_z85_symbols.

(** The encoded length as the specification words it: five symbols for each
    full 4-byte group, and [5 - padCount] for a non-empty remainder. *)
Definition spec_encoded_length (n : nat) : nat :=
  let padCount := (4 - n `mod` 4)%nat in
  (5 * (n / 4) + (if n `mod` 4 =? 0 then 0 else 5 - padCount))%nat.

(** What a call of [decode] on [text] may end in: bytes, one less than the
    symbols of a trailing group and four for each full group, when every
    character is in the alphabet; or one of the two [ValueError]s of
    [_get_num_by_seq_dec], about a group of five characters. *)
Definition decode_outcome (alphabet text : list ascii)
    (outcome : result (list byte)) : Prop :=
  match outcome with
  | Ok data =>
      Forall (λ c, c ∈ alphabet) text
      ∧ length data
        = (4 * (length text / 5) + ((length text `mod` 5) - 1))%nat
  | Raise (IllegalCharacter seq c code pos) =>
      c ∈ text ∧ (c ∉ alphabet) ∧ code = ord c
      ∧ 0 ≤ pos < 5 ∧ length seq = 5%nat ∧ seq !! Z.to_nat pos = Some c
  | Raise (IllegalSequence seq val) =>
      _MAXVAL < val ∧ length seq = 5%nat ∧ Forall (λ c, c ∈ alphabet) seq
  | Raise _ => False
  end.

(** ** The key generator [src/example_wpskg.py]

    The script reads random bytes with [os.urandom] and writes lines with
    [print].  Both are modelled on an explicit world: an endless supply of
    entropy bytes, of which [os.urandom(n)] takes the next [n], and the lines
    printed so far. *)

Record world : Type := {
  entropy : nat → byte;
  stdout : list (list ascii)
}.

(** The exceptions a run of the script can end in: the [ValueError] of
    [os.urandom] for a negative size, or an exception of the codec. *)
Inductive script_exn : Type :=
| UrandomNegative
| CodecRaised (e : exn).

Inductive outcome (A : Type) : Type :=
| Returned (a : A)
| Raised (e : script_exn).
Arguments Returned {A} a.
Arguments Raised {A} e.

(** [os.urandom(n)]. *)
Definition os_urandom (n : Z) (w : world) : outcome (list byte) * world :=
  if n <? 0 then (Raised UrandomNegative, w)
  else (Returned (map (entropy w) (seq 0 (Z.to_nat n))),
        {| entropy := λ i, entropy w (i + Z.to_nat n)%nat;
           stdout := stdout w |}).

(** The [print] statement: one more line on the standard output. *)
Definition print (line : list ascii) (w : world) : world :=
  {| entropy := entropy w; stdout := stdout w ++ [line] |}.

(** [s.ljust(width)]: spaces are added on the right up to [width]; a longer
    string is returned as it is. *)
Definition ljust (s : list ascii) (width : Z) : list ascii :=
  s ++ replicate (Z.to_nat (width - Z.of_nat (length s))) " "%char.

Definition w92codec : result Base8xCodec :=
  Base8xCodec_init
    (list_ascii_of_string
       ("0123456789abcdefghijklmnopqrstuvwxyz"
        ++ "ABCDEFGHIJKLMNOPQRSTUVWXYZ"
        ++ "`,~| _;.-:+=^!/*?&<>()[]{}@%$#")).

Definition WPVARS : list (list ascii) :=
  map list_ascii_of_string
    ["AUTH_KEY"; "SECURE_AUTH_KEY"; "LOGGED_IN_KEY"; "NONCE_KEY";
     "AUTH_SALT"; "SECURE_AUTH_SALT"; "LOGGED_IN_SALT"; "NONCE_SALT"]%string.

(** [max([len(_var) for _var in WPVARS]) + 4]; lengths are not negative, so
    the maximum of the non-empty list is its fold from 0. *)
Definition JSIZE : Z :=
  foldr Z.max 0 (map (λ _var, Z.of_nat (length _var)) WPVARS) + 4.

(** [genkeyfrom(size)]: the argument [os.urandom(size)] is evaluated first,
    then [w92codec.encode] is called on it. *)
Definition genkeyfrom (size : Z) (w : world) : outcome (list ascii) * world :=
  match os_urandom size w with
  | (Raised e, w') => (Raised e, w')
  | (Returned bytes, w') =>
      match (c ← w92codec; encode c bytes) with
      | Ok key => (Returned key, w')
      | Raise e => (Raised (CodecRaised e), w')
      end
  end.

Definition pronouncewpline (wpvar secret : list ascii) : list ascii :=
  let v_tmp := "'"%char :: wpvar ++ list_ascii_of_string "'," in
  let v_jst := ljust v_tmp JSIZE in
  list_ascii_of_string "define(" ++ v_jst ++ "'"%char :: secret
  ++ list_ascii_of_string "');".

(** The first two statements of [use]: [divmod(nbits, 8)] and the rounding
    up of the quotient. *)
Definition use_nbytes (nbits : Z) : Z :=
  let nbytes := nbits / 8 in
  let rem := nbits mod 8 in
  nbytes + (if 0 <? rem then 1 else 0).

(** The [for var in WPVARS] loop of [use]. *)
Fixpoint use_loop (vars : list (list ascii)) (nbytes : Z) (w : world)
  : outcome unit * world :=
  match vars with
  | [] => (Returned tt, w)
  | var :: vars' =>
      match genkeyfrom nbytes w with
      | (Raised e, w') => (Raised e, w')
      | (Returned secretkey, w') =>
          use_loop vars' nbytes (print (pronouncewpline var secretkey) w')
      end
  end.

Definition use (nbits : Z) (w : world) : outcome unit * world :=
  use_loop WPVARS (use_nbytes nbits) w.

(** * Properties *)

(** ** Bytes and characters *)

Lemma byte_val_bounds (b : byte) : 0 ≤ byte_val b < 256.
Proof.
  unfold byte_val. pose proof (Byte.to_N_bounded b). lia.
Qed.

Lemma byte_of_val_val (b : byte) : byte_of_val (byte_val b) = b.
Proof.
  unfold byte_of_val, byte_val. rewrite N2Z.id, Byte.of_to_N. reflexivity.
Qed.

Lemma nat_mod_Z (k n : nat) :
  (k `mod` n = 0)%nat → Z.of_nat k mod Z.of_nat n = 0.
Proof. intros Hk. rewrite <- Nat2Z.inj_mod, Hk. reflexivity. Qed.

(** ** Sequence primitives *)

Lemma getitem_lookup {A} (l : list A) (i : nat) (x : A) :
  l !! i = Some x → getitem l (Z.of_nat i) = Ok x.
Proof.
  intros Hx. unfold getitem.
  destruct (Z.ltb_spec (Z.of_nat i) 0) as [?|_]; [lia|].
  destruct (Z.ltb_spec (Z.of_nat i) 0) as [?|_]; [lia|].
  rewrite Nat2Z.id, Hx. reflexivity.
Qed.

Lemma getitem_nonneg {A} (l : list A) (i : Z) (x : A) :
  0 ≤ i → l !! Z.to_nat i = Some x → getitem l i = Ok x.
Proof.
  intros Hi Hx. rewrite <- (Z2Nat.id i Hi). apply getitem_lookup, Hx.
Qed.

Lemma getitem_last {A} (l : list A) (x : A) :
  last l = Some x → getitem l (-1) = Ok x.
Proof.
  intros Hx. unfold getitem. simpl.
  rewrite last_lookup in Hx.
  assert (0 < length l)%nat.
  { apply lookup_lt_Some in Hx. destruct l; simpl in *; lia. }
  destruct (Z.ltb_spec (-1 + Z.of_nat (length l)) 0) as [?|_]; [lia|].
  replace (Z.to_nat (-1 + Z.of_nat (length l))) with (pred (length l)) by lia.
  rewrite Hx. reflexivity.
Qed.

(** ** The chunker *)

Section chunkby.
Context {A : Type}.
Implicit Types (seq tmp g rest : list A) (stride count : Z).

Lemma chunkby_loop_short stride seq tmp count :
  count + Z.of_nat (length seq) < stride →
  chunkby_loop stride seq tmp count
  = ([], (tmp ++ seq, count + Z.of_nat (length seq))).
Proof.
  revert tmp count. induction seq as [|item seq IH]; intros tmp count Hlt.
  - cbn. rewrite app_nil_r, Z.add_0_r. reflexivity.
  - rewrite length_cons, Nat2Z.inj_succ in *. cbn [chunkby_loop].
    destruct (Z.eqb_spec (count + 1) stride) as [?|_]; [lia|].
    rewrite IH by lia. rewrite <- app_assoc. cbn [app]. do 2 f_equal. lia.
Qed.

Lemma chunkby_loop_full stride g rest tmp count :
  g ≠ [] →
  count + Z.of_nat (length g) = stride →
  chunkby_loop stride (g ++ rest) tmp count
  = ((tmp ++ g, 0) :: (chunkby_loop stride rest [] 0).1,
     (chunkby_loop stride rest [] 0).2).
Proof.
  revert tmp count. induction g as [|item g IH]; intros tmp count Hne Hlen.
  - congruence.
  - rewrite length_cons, Nat2Z.inj_succ in Hlen. cbn [app chunkby_loop].
    destruct (Z.eqb_spec (count + 1) stride) as [Heq|Hneq].
    + destruct g; [|rewrite length_cons, Nat2Z.inj_succ in Hlen; lia].
      cbn [app]. destruct (chunkby_loop stride rest [] 0). reflexivity.
    + destruct g as [|item' g']; [cbn in Hlen; lia|].
      rewrite IH by first [congruence | lia].
      rewrite <- app_assoc. reflexivity.
Qed.

Lemma _chunkby_nil stride padding :
  0 < stride → _chunkby ([] : list A) stride padding = Ok [].
Proof.
  intros Hpos. unfold _chunkby.
  destruct (Z.leb_spec stride 0) as [?|_]; [lia|]. reflexivity.
Qed.

Lemma _chunkby_short stride seq (p : A) :
  seq ≠ [] →
  Z.of_nat (length seq) < stride →
  _chunkby seq stride (Some p)
  = Ok [(seq ++ replicate (Z.to_nat (stride - Z.of_nat (length seq))) p,
         stride - Z.of_nat (length seq))].
Proof.
  intros Hne Hlt. unfold _chunkby.
  destruct (Z.leb_spec stride 0) as [?|_]; [lia|].
  rewrite chunkby_loop_short by lia. rewrite Z.add_0_l. cbn [app].
  destruct (Z.eqb_spec (Z.of_nat (length seq)) 0) as [H0|_].
  - destruct seq; [congruence | cbn in H0; lia].
  - reflexivity.
Qed.

Lemma _chunkby_full stride g rest padding :
  0 < stride →
  Z.of_nat (length g) = stride →
  _chunkby (g ++ rest) stride padding
  = (chunks ← _chunkby rest stride padding; mret ((g, 0) :: chunks)).
Proof.
  intros Hpos Hlen. unfold _chunkby.
  destruct (Z.leb_spec stride 0) as [?|_]; [lia|].
  rewrite chunkby_loop_full by first [intros ->; cbn in *; lia | lia].
  destruct (chunkby_loop stride rest [] 0) as [out [tmp count]]. simpl.
  destruct (negb (count =? 0)); reflexivity.
Qed.

(** Lists can be analysed one full chunk at a time. *)
Lemma chunk_ind (n : nat) (Hn : (0 < n)%nat) (P : list A → Prop) :
  (∀ seq, (length seq < n)%nat → P seq) →
  (∀ g rest, length g = n → P rest → P (g ++ rest)) →
  ∀ seq, P seq.
Proof.
  intros Hshort Hfull seq.
  induction seq as [seq IH] using (induction_ltof1 _ (@length A)).
  unfold ltof in IH.
  destruct (Nat.lt_ge_cases (length seq) n) as [Hlt|Hge].
  - apply Hshort, Hlt.
  - rewrite <- (take_drop n seq). apply Hfull.
    + rewrite length_take. lia.
    + apply IH. rewrite length_drop. lia.
Qed.

End chunkby.

(** ** The conversion generator *)

Section codec_gen.
Context {A B : Type}.
Variables (n m : Z) (pad : A).
Variables (f : list A → result Z) (h : Z → result (list B)).
Hypothesis Hn : 0 < n.

Lemma _chunkby_total (seq : list A) (padding : option A) :
  ∃ chunks, _chunkby seq n padding = Ok chunks.
Proof.
  unfold _chunkby. destruct (Z.leb_spec n 0) as [?|_]; [lia|].
  destruct (chunkby_loop n seq [] 0) as [out [tmp count]].
  destruct (negb (count =? 0)); eauto.
Qed.

Lemma codec_gen_nil : _codec_generator_factory n m pad f h [] = Ok [].
Proof.
  unfold _codec_generator_factory. rewrite _chunkby_nil by lia. reflexivity.
Qed.

Lemma codec_gen_short (seq : list A) :
  seq ≠ [] →
  Z.of_nat (length seq) < n →
  _codec_generator_factory n m pad f h seq
  = (out ← codec_gen_body m f h
             (seq ++ replicate (Z.to_nat (n - Z.of_nat (length seq))) pad,
              n - Z.of_nat (length seq));
     mret [out]).
Proof.
  intros Hne Hlt. unfold _codec_generator_factory.
  rewrite _chunkby_short by assumption. cbn [mbind result_bind mapM].
  destruct (codec_gen_body _ _ _ _); reflexivity.
Qed.

Lemma codec_gen_full (g rest : list A) :
  Z.of_nat (length g) = n →
  _codec_generator_factory n m pad f h (g ++ rest)
  = (out ← codec_gen_body m f h (g, 0);
     outs ← _codec_generator_factory n m pad f h rest;
     mret (out :: outs)).
Proof.
  intros Hlen. unfold _codec_generator_factory.
  rewrite _chunkby_full by assumption.
  destruct (_chunkby_total rest (Some pad)) as [chunks ->].
  reflexivity.
Qed.

(** Input that starts with whole chunks is converted chunk by chunk: the
    groups of the prefix come first, then those of the rest. *)
Lemma codec_gen_app (pre seq : list A) :
  Z.of_nat (length pre) mod n = 0 →
  _codec_generator_factory n m pad f h (pre ++ seq)
  = (outs1 ← _codec_generator_factory n m pad f h pre;
     outs2 ← _codec_generator_factory n m pad f h seq;
     mret (outs1 ++ outs2)).
Proof.
  induction pre as [pre Hshort|g rest Hg IH]
    using (chunk_ind (Z.to_nat n) ltac:(lia)); intros Hmod.
  - rewrite Z.mod_small in Hmod by lia.
    destruct pre; [|rewrite length_cons in Hmod; lia].
    rewrite codec_gen_nil. cbn [app mbind result_bind].
    destruct (_codec_generator_factory n m pad f h seq); reflexivity.
  - rewrite <- app_assoc.
    rewrite (codec_gen_full g (rest ++ seq)), (codec_gen_full g rest) by lia.
    rewrite IH.
    + destruct (codec_gen_body m f h (g, 0)); [|reflexivity].
      cbn [mbind result_bind].
      destruct (_codec_generator_factory n m pad f h rest); [|reflexivity].
      cbn [mbind result_bind].
      destruct (_codec_generator_factory n m pad f h seq); reflexivity.
    + rewrite length_app, Nat2Z.inj_add in Hmod.
      replace (Z.of_nat (length g)) with (1 * n) in Hmod by lia.
      rewrite Z.add_comm, Z_mod_plus_full in Hmod. exact Hmod.
Qed.

End codec_gen.

(** ** Alphabet validation and construction *)

Lemma validate_loop_Some seq seen accept accept' :
  validate_loop seq seen accept = Some accept' →
  accept' = accept ++ seq ∧ NoDup seq ∧ Forall printable seq
  ∧ ∀ x, x ∈ seq → x ∉ seen.
Proof.
  revert seen accept. induction seq as [|item seq IH]; intros seen accept Hv.
  - cbn in Hv. injection Hv as <-. rewrite app_nil_r.
    repeat split; [constructor | constructor | intros x Hx; inversion Hx].
  - cbn [validate_loop] in Hv.
    destruct (bool_decide_reflect (item ∈ seen)) as [|Hnew]; [discriminate|].
    destruct (Z.leb_spec 32 (ord item)) as [Hlo|]; [|discriminate].
    destruct (Z.leb_spec (ord item) 126) as [Hhi|]; [|discriminate].
    cbn in Hv. apply IH in Hv as (-> & Hnd & Hpr & Hfresh).
    rewrite <- app_assoc. repeat split.
    + constructor; [|assumption]. intros Hin. apply (Hfresh item Hin).
      apply elem_of_union. left. apply elem_of_singleton. reflexivity.
    + constructor; [split; assumption | assumption].
    + intros x Hx Hseen. apply elem_of_cons in Hx as [->|Hx]; [contradiction|].
      apply (Hfresh x Hx). apply elem_of_union. right. assumption.
Qed.

Lemma validate_loop_complete seq seen accept :
  NoDup seq → Forall printable seq → (∀ x, x ∈ seq → x ∉ seen) →
  validate_loop seq seen accept = Some (accept ++ seq).
Proof.
  revert seen accept. induction seq as [|item seq IH];
    intros seen accept Hnd Hpr Hfresh.
  - cbn. rewrite app_nil_r. reflexivity.
  - cbn [validate_loop].
    apply NoDup_cons in Hnd as [Hitem Hnd].
    apply Forall_cons in Hpr as [[Hlo Hhi] Hpr].
    destruct (bool_decide_reflect (item ∈ seen)) as [Hseen|_].
    { exfalso. apply (Hfresh item); [left | assumption]. }
    destruct (Z.leb_spec 32 (ord item)) as [_|]; [|lia].
    destruct (Z.leb_spec (ord item) 126) as [_|]; [|lia].
    cbn. rewrite IH; [rewrite <- app_assoc; reflexivity | assumption.. |].
    intros x Hx Hseen. apply elem_of_union in Hseen as [Hseen|Hseen].
    + apply elem_of_singleton in Hseen as ->. contradiction.
    + apply (Hfresh x); [right|]; assumption.
Qed.

(** What [_validate_alphabet] accepts, in the words of the data model. *)
Lemma _validate_alphabet_Some seq alphabet :
  _validate_alphabet seq = Some alphabet
  ↔ alphabet = seq ∧ NoDup seq ∧ Forall printable seq
    ∧ (85 ≤ length seq ≤ 95)%nat.
Proof.
  unfold _validate_alphabet. split.
  - destruct (validate_loop seq ∅ []) as [accept|] eqn:Hv; [|discriminate].
    apply validate_loop_Some in Hv as (-> & Hnd & Hpr & _). cbn [app].
    destruct (Z.leb_spec 85 (Z.of_nat (length seq))); [|discriminate].
    destruct (Z.leb_spec (Z.of_nat (length seq)) 95); [|discriminate].
    cbn. intros [= <-]. repeat split; first [assumption | lia].
  - intros (-> & Hnd & Hpr & Hlen).
    rewrite validate_loop_complete by first [assumption | set_solver].
    cbn [app].
    destruct (Z.leb_spec 85 (Z.of_nat (length seq))); [|lia].
    destruct (Z.leb_spec (Z.of_nat (length seq)) 95); [|lia].
    reflexivity.
Qed.

Lemma Base8xCodec_init_Ok alphabet self :
  Base8xCodec_init alphabet = Ok self →
  NoDup alphabet ∧ Forall printable alphabet
  ∧ (85 ≤ length alphabet ≤ 95)%nat
  ∧ self = {| _alphabet := alphabet;
              _radix := Z.of_nat (length alphabet);
              _ordmap := dict (map (λ ic, (ic.2, ic.1)) (enumerate alphabet));
              _powersofradix :=
                map (λ p, Z.of_nat (length alphabet) ^ p) [4; 3; 2; 1; 0];
              _powersenum :=
                enumerate
                  (map (λ p, Z.of_nat (length alphabet) ^ p) [4; 3; 2; 1; 0]) |}.
Proof.
  unfold Base8xCodec_init.
  destruct (_validate_alphabet alphabet) as [alphabet'|] eqn:Hv; [|discriminate].
  apply _validate_alphabet_Some in Hv as (-> & Hnd & Hpr & Hlen).
  intros [= <-]. repeat split; first [assumption | lia].
Qed.

Lemma Base8xCodec_init_cases alphabet :
  (∃ self, Base8xCodec_init alphabet = Ok self)
  ∨ Base8xCodec_init alphabet = Raise InvalidAlphabet.
Proof.
  unfold Base8xCodec_init.
  destruct (_validate_alphabet alphabet); [left; eauto | right; reflexivity].
Qed.

Lemma Base8xCodec_init_valid alphabet :
  NoDup alphabet → Forall printable alphabet →
  (85 ≤ length alphabet ≤ 95)%nat →
  ∃ self, Base8xCodec_init alphabet = Ok self.
Proof.
  intros Hnd Hpr Hlen. unfold Base8xCodec_init.
  rewrite (proj2 (_validate_alphabet_Some alphabet alphabet)) by auto.
  eexists. reflexivity.
Qed.

(** ** The reverse lookup map *)

Section ordmap.
Implicit Types (l : list ascii) (m : gmap ascii Z) (ch : ascii).

Lemma ordmap_fold_notin l start m ch :
  ch ∉ l →
  fold_left (λ m kv, <[kv.1 := kv.2]> m)
    (map (λ ic : Z * ascii, (ic.2, ic.1)) (enumerate_from start l)) m !! ch
  = m !! ch.
Proof.
  revert start m. induction l as [|x l IH]; intros start m Hnotin.
  - reflexivity.
  - cbn [enumerate_from map fold_left fst snd].
    apply not_elem_of_cons in Hnotin as [Hne Hnotin].
    rewrite IH by assumption. apply lookup_insert_ne. congruence.
Qed.

Lemma ordmap_fold_lookup l start m ch (i : nat) :
  NoDup l → l !! i = Some ch →
  fold_left (λ m kv, <[kv.1 := kv.2]> m)
    (map (λ ic : Z * ascii, (ic.2, ic.1)) (enumerate_from start l)) m !! ch
  = Some (start + Z.of_nat i).
Proof.
  revert start m i. induction l as [|x l IH]; intros start m i Hnd Hi.
  - discriminate.
  - cbn [enumerate_from map fold_left fst snd].
    apply NoDup_cons in Hnd as [Hx Hnd]. destruct i as [|i].
    + injection Hi as ->. rewrite ordmap_fold_notin by assumption.
      rewrite lookup_insert_eq. f_equal. lia.
    + cbn in Hi. rewrite (IH _ _ i) by assumption. f_equal. lia.
Qed.

End ordmap.

(** ** Positional numerals in radix 85 to 95 *)

Section radix.
Variable r : Z.
Hypothesis Hr : 85 ≤ r ≤ 95.

(** Five digits of the smallest radix already cover 32 bits. *)
Lemma radix_pow5 : 2 ^ 32 ≤ r ^ 5.
Proof.
  transitivity (85 ^ 5); [vm_compute; discriminate|].
  apply Z.pow_le_mono_l. lia.
Qed.

Lemma radix_pow_nonzero (k : Z) : 0 ≤ k → r ^ k ≠ 0.
Proof. intros Hk. apply Z.pow_nonzero; lia. Qed.

Lemma digit_bounds (V k : Z) : 0 ≤ (V / r ^ k) mod r < r.
Proof. apply Z.mod_pos_bound. lia. Qed.

Lemma digit_step (V k : Z) :
  0 ≤ k → (V / r ^ k) mod r = V / r ^ k - r * (V / r ^ (k + 1)).
Proof.
  intros Hk. rewrite Z.pow_add_r, Z.pow_1_r by lia.
  rewrite <- Z.div_div by (try apply Z.pow_pos_nonneg; lia).
  rewrite Z.mod_eq by lia. reflexivity.
Qed.

Lemma digit_top (V : Z) : 0 ≤ V < 2 ^ 32 → V / r ^ 5 = 0.
Proof.
  intros HV. apply Z.div_small. pose proof radix_pow5. lia.
Qed.

(** The five digits of a 32-bit value give the value back. *)
Lemma digits_recompose (V : Z) :
  0 ≤ V < 2 ^ 32 →
  0 + (V / r ^ 4) mod r * r ^ 4 + (V / r ^ 3) mod r * r ^ 3
    + (V / r ^ 2) mod r * r ^ 2 + (V / r ^ 1) mod r * r ^ 1
    + (V / r ^ 0) mod r * r ^ 0 = V.
Proof.
  intros HV. rewrite !digit_step by lia.
  change (4 + 1) with 5. change (3 + 1) with 4. change (2 + 1) with 3.
  change (1 + 1) with 2. change (0 + 1) with 1.
  rewrite (digit_top V HV), Z.pow_0_r, Z.div_1_r. ring.
Qed.

(** Replacing the 1, 2 or 3 least significant digits by the largest digit
    moves a value up by less than 256, 256^2 or 256^3. *)
Lemma tail_values (V : Z) :
  0 ≤ V < 2 ^ 32 →
  (V ≤ 0 + (V / r ^ 4) mod r * r ^ 4 + (V / r ^ 3) mod r * r ^ 3
         + (V / r ^ 2) mod r * r ^ 2 + (V / r ^ 1) mod r * r ^ 1
         + (r - 1) * r ^ 0 < V + 256)
  ∧ (V ≤ 0 + (V / r ^ 4) mod r * r ^ 4 + (V / r ^ 3) mod r * r ^ 3
         + (V / r ^ 2) mod r * r ^ 2 + (r - 1) * r ^ 1
         + (r - 1) * r ^ 0 < V + 256 ^ 2)
  ∧ (V ≤ 0 + (V / r ^ 4) mod r * r ^ 4 + (V / r ^ 3) mod r * r ^ 3
         + (r - 1) * r ^ 2 + (r - 1) * r ^ 1
         + (r - 1) * r ^ 0 < V + 256 ^ 3).
Proof.
  intros HV. rewrite !digit_step by lia.
  change (4 + 1) with 5. change (3 + 1) with 4. change (2 + 1) with 3.
  change (1 + 1) with 2.
  rewrite (digit_top V HV).
  assert (∀ k, 0 ≤ k → 0 < r ^ k) as Hpos
    by (intros k Hk; apply Z.pow_pos_nonneg; lia).
  pose proof (Z.mod_pos_bound V (r ^ 1) (Hpos 1 ltac:(lia))) as H1.
  pose proof (Z.mod_pos_bound V (r ^ 2) (Hpos 2 ltac:(lia))) as H2.
  pose proof (Z.mod_pos_bound V (r ^ 3) (Hpos 3 ltac:(lia))) as H3.
  clear Hpos.
  rewrite Z.mod_eq in H1, H2, H3 by (apply Z.pow_nonzero; lia).
  assert (r ^ 1 ≤ 256) by (rewrite Z.pow_1_r; lia).
  assert (r ^ 2 ≤ 256 ^ 2) by (apply Z.pow_le_mono_l; lia).
  assert (r ^ 3 ≤ 256 ^ 3) by (apply Z.pow_le_mono_l; lia).
  set (Q1 := V / r ^ 1) in *. set (Q2 := V / r ^ 2) in *.
  set (Q3 := V / r ^ 3) in *. set (Q4 := V / r ^ 4) in *.
  repeat split; nia.
Qed.

End radix.

(** ** Big-endian 32-bit values *)

Ltac literal_powers :=
  change (2 ^ 32) with 4294967296 in *; change (2 ^ 24) with 16777216 in *;
  change (2 ^ 16) with 65536 in *; change (2 ^ 8) with 256 in *;
  change (256 ^ 3) with 16777216 in *; change (256 ^ 2) with 65536 in *.

Lemma be_bytes_of_value (b0 b1 b2 b3 V : Z) :
  0 ≤ b0 < 256 → 0 ≤ b1 < 256 → 0 ≤ b2 < 256 → 0 ≤ b3 < 256 →
  V = (((0 * 256 + b0) * 256 + b1) * 256 + b2) * 256 + b3 →
  0 ≤ V < 2 ^ 32
  ∧ (V / 2 ^ 24) mod 256 = b0 ∧ (V / 2 ^ 16) mod 256 = b1
  ∧ (V / 2 ^ 8) mod 256 = b2 ∧ V mod 256 = b3.
Proof.
  intros H0 H1 H2 H3 ->. literal_powers.
  repeat split; try lia; Z.div_mod_to_equations; lia.
Qed.

(** A value that stays within the zeroed low bytes keeps its high bytes. *)
Lemma be_bytes_near (b0 b1 b2 V V' : Z) :
  0 ≤ b0 < 256 → 0 ≤ b1 < 256 → 0 ≤ b2 < 256 →
  V = (((0 * 256 + b0) * 256 + b1) * 256 + b2) * 256 + 0 →
  (b1 = 0 → b2 = 0 → V ≤ V' < V + 256 ^ 3 →
     0 ≤ V' < 2 ^ 32 ∧ (V' / 2 ^ 24) mod 256 = b0)
  ∧ (b2 = 0 → V ≤ V' < V + 256 ^ 2 →
     0 ≤ V' < 2 ^ 32
     ∧ (V' / 2 ^ 24) mod 256 = b0 ∧ (V' / 2 ^ 16) mod 256 = b1)
  ∧ (V ≤ V' < V + 256 →
     0 ≤ V' < 2 ^ 32
     ∧ (V' / 2 ^ 24) mod 256 = b0 ∧ (V' / 2 ^ 16) mod 256 = b1
     ∧ (V' / 2 ^ 8) mod 256 = b2).
Proof.
  intros H0 H1 H2 ->. literal_powers.
  repeat split; try lia; Z.div_mod_to_equations; lia.
Qed.

Lemma struct_unpack_1I_Ok (b0 b1 b2 b3 : byte) :
  struct_unpack_1I [b0; b1; b2; b3]
  = Ok ((((0 * 256 + byte_val b0) * 256 + byte_val b1) * 256 + byte_val b2)
        * 256 + byte_val b3).
Proof. reflexivity. Qed.

Lemma struct_pack_1I_Ok (V : Z) :
  0 ≤ V < 2 ^ 32 →
  struct_pack_1I V
  = Ok [byte_of_val ((V / 2 ^ 24) mod 256); byte_of_val ((V / 2 ^ 16) mod 256);
        byte_of_val ((V / 2 ^ 8) mod 256); byte_of_val (V mod 256)].
Proof.
  intros HV. unfold struct_pack_1I.
  destruct (Z.ltb_spec V 0) as [?|_]; [lia|].
  destruct (Z.ltb_spec (2 ^ 32 - 1) V) as [?|_]; [lia|]. reflexivity.
Qed.

Lemma struct_pack_unpack (b0 b1 b2 b3 : byte) (V : Z) :
  struct_unpack_1I [b0; b1; b2; b3] = Ok V →
  0 ≤ V < 2 ^ 32 ∧ struct_pack_1I V = Ok [b0; b1; b2; b3].
Proof.
  rewrite struct_unpack_1I_Ok. intros [= HV]. symmetry in HV.
  destruct (be_bytes_of_value _ _ _ _ V (byte_val_bounds b0) (byte_val_bounds b1)
              (byte_val_bounds b2) (byte_val_bounds b3) HV)
    as (Hrange & E0 & E1 & E2 & E3).
  split; [assumption|].
  rewrite struct_pack_1I_Ok, E0, E1, E2, E3, !byte_of_val_val by assumption.
  reflexivity.
Qed.

(** ** A constructed codec *)

Section codec.
Variables (alphabet : list ascii) (self : Base8xCodec).
Hypothesis Hinit : Base8xCodec_init alphabet = Ok self.
Local Abbreviation r := (Z.of_nat (length alphabet)).

Lemma codec_radix_range : 85 ≤ r ≤ 95.
Proof. apply Base8xCodec_init_Ok in Hinit as (_ & _ & ? & _). lia. Qed.

Lemma codec_alphabet : _alphabet self = alphabet.
Proof. apply Base8xCodec_init_Ok in Hinit as (_ & _ & _ & ->). reflexivity. Qed.

Lemma codec_radix : _radix self = r.
Proof. apply Base8xCodec_init_Ok in Hinit as (_ & _ & _ & ->). reflexivity. Qed.

Lemma codec_powersofradix :
  _powersofradix self = [r ^ 4; r ^ 3; r ^ 2; r ^ 1; r ^ 0].
Proof. apply Base8xCodec_init_Ok in Hinit as (_ & _ & _ & ->). reflexivity. Qed.

Lemma codec_powersenum :
  _powersenum self
  = [(0, r ^ 4); (1, r ^ 3); (2, r ^ 2); (3, r ^ 1); (4, r ^ 0)].
Proof. apply Base8xCodec_init_Ok in Hinit as (_ & _ & _ & ->). reflexivity. Qed.

Lemma codec_ordmap_symbol (p : Z) (c : ascii) :
  symbol_at alphabet p c → _ordmap self !! c = Some p.
Proof.
  intros [Hp Hc]. apply Base8xCodec_init_Ok in Hinit as (Hnd & _ & _ & ->).
  cbn [_ordmap]. unfold dict, enumerate.
  rewrite (ordmap_fold_lookup _ _ _ _ _ Hnd Hc). f_equal. lia.
Qed.

Lemma codec_ordmap_notin (c : ascii) :
  c ∉ alphabet → _ordmap self !! c = None.
Proof.
  intros Hc. apply Base8xCodec_init_Ok in Hinit as (_ & _ & _ & ->).
  cbn [_ordmap]. unfold dict, enumerate.
  rewrite ordmap_fold_notin by assumption. apply lookup_empty.
Qed.

Lemma symbol_at_elem (c : ascii) :
  c ∈ alphabet → ∃ p, symbol_at alphabet p c.
Proof.
  intros [i Hi]%list_elem_of_lookup. exists (Z.of_nat i).
  split; [lia | rewrite Nat2Z.id; assumption].
Qed.

Lemma symbol_at_digit (d : Z) :
  0 ≤ d < r → ∃ c, symbol_at alphabet d c.
Proof.
  intros Hd. destruct (lookup_lt_is_Some_2 alphabet (Z.to_nat d)) as [c Hc]; [lia|].
  exists c. split; [lia | assumption].
Qed.

Lemma symbol_at_in (p : Z) (c : ascii) : symbol_at alphabet p c → c ∈ alphabet.
Proof. intros [_ Hc]. eapply list_elem_of_lookup_2, Hc. Qed.

Lemma symbol_at_bounds (p : Z) (c : ascii) : symbol_at alphabet p c → 0 ≤ p < r.
Proof. intros [Hp Hc]. apply lookup_lt_Some in Hc. lia. Qed.

(** The padding character of the decoder is the symbol of the largest digit. *)
Lemma codec_padchar :
  ∃ pad, symbol_at alphabet (r - 1) pad
         ∧ getitem (_alphabet self) (-1) = Ok pad.
Proof.
  pose proof codec_radix_range as Hr.
  destruct (symbol_at_digit (r - 1)) as [pad Hpad]; [lia|].
  exists pad. split; [assumption|].
  rewrite codec_alphabet. apply getitem_last. rewrite last_lookup.
  destruct Hpad as [_ Hpad]. rewrite <- Hpad. f_equal. lia.
Qed.

(** One output symbol of [_encode_quartet]. *)
Lemma encode_digit (V k : Z) :
  0 ≤ k →
  ∃ c, symbol_at alphabet ((V / r ^ k) mod r) c
       ∧ (q ← floordiv V (r ^ k);
          d ← pymod q (_radix self);
          getitem (_alphabet self) d) = Ok c.
Proof.
  intros Hk. pose proof codec_radix_range as Hr.
  destruct (symbol_at_digit ((V / r ^ k) mod r)) as [c Hc].
  { apply digit_bounds. assumption. }
  exists c. split; [assumption|].
  rewrite codec_radix, codec_alphabet. unfold floordiv, pymod.
  destruct (Z.eqb_spec (r ^ k) 0) as [E|_].
  { exfalso. revert E. apply radix_pow_nonzero; assumption. }
  cbn [mbind result_bind].
  destruct (Z.eqb_spec r 0) as [?|_]; [lia|].
  cbn [mbind result_bind].
  destruct Hc as [Hd Hc]. apply getitem_nonneg; assumption.
Qed.

Lemma _encode_quartet_Ok (V : Z) :
  ∃ c4 c3 c2 c1 c0,
    _encode_quartet self V = Ok [c4; c3; c2; c1; c0]
    ∧ symbol_at alphabet ((V / r ^ 4) mod r) c4
    ∧ symbol_at alphabet ((V / r ^ 3) mod r) c3
    ∧ symbol_at alphabet ((V / r ^ 2) mod r) c2
    ∧ symbol_at alphabet ((V / r ^ 1) mod r) c1
    ∧ symbol_at alphabet ((V / r ^ 0) mod r) c0.
Proof.
  destruct (encode_digit V 4) as (c4 & H4 & E4); [lia|].
  destruct (encode_digit V 3) as (c3 & H3 & E3); [lia|].
  destruct (encode_digit V 2) as (c2 & H2 & E2); [lia|].
  destruct (encode_digit V 1) as (c1 & H1 & E1); [lia|].
  destruct (encode_digit V 0) as (c0 & H0 & E0); [lia|].
  exists c4, c3, c2, c1, c0. split; [|tauto].
  unfold _encode_quartet. rewrite codec_powersofradix. cbn [mapM].
  rewrite E4, E3, E2, E1, E0. reflexivity.
Qed.

(** [_get_num_by_seq_dec] on five alphabet symbols. *)
Lemma _get_num_by_seq_dec_symbols (p4 p3 p2 p1 p0 : Z) (c4 c3 c2 c1 c0 : ascii) :
  symbol_at alphabet p4 c4 → symbol_at alphabet p3 c3 →
  symbol_at alphabet p2 c2 → symbol_at alphabet p1 c1 →
  symbol_at alphabet p0 c0 →
  _get_num_by_seq_dec self [c4; c3; c2; c1; c0]
  = (let val := 0 + p4 * r ^ 4 + p3 * r ^ 3 + p2 * r ^ 2 + p1 * r ^ 1
                + p0 * r ^ 0 in
     if _MAXVAL <? val then Raise (IllegalSequence [c4; c3; c2; c1; c0] val)
     else Ok val).
Proof.
  intros H4 H3 H2 H1 H0.
  unfold _get_num_by_seq_dec. rewrite codec_powersenum.
  cbn [get_num_loop].
  change (getitem [c4; c3; c2; c1; c0] 0) with (Ok c4).
  change (getitem [c4; c3; c2; c1; c0] 1) with (Ok c3).
  change (getitem [c4; c3; c2; c1; c0] 2) with (Ok c2).
  change (getitem [c4; c3; c2; c1; c0] 3) with (Ok c1).
  change (getitem [c4; c3; c2; c1; c0] 4) with (Ok c0).
  cbn [mbind result_bind].
  rewrite (codec_ordmap_symbol _ _ H4), (codec_ordmap_symbol _ _ H3),
    (codec_ordmap_symbol _ _ H2), (codec_ordmap_symbol _ _ H1),
    (codec_ordmap_symbol _ _ H0).
  reflexivity.
Qed.

(** The loop of [_get_num_by_seq_dec] stops at the first character that
    has no entry in the reverse map. *)
Lemma get_num_loop_illegal (good more : list ascii) (c : ascii)
    (pows : list Z) (j : nat) (val : Z) :
  Forall (λ x, x ∈ alphabet) good → c ∉ alphabet →
  (j ≤ length good < j + length pows)%nat →
  get_num_loop self (good ++ c :: more) (enumerate_from (Z.of_nat j) pows) val
  = Raise (IllegalCharacter (good ++ c :: more) c (ord c)
             (Z.of_nat (length good))).
Proof.
  intros Hgood Hc. revert j val.
  induction pows as [|offset pows IH]; intros j val Hj.
  - cbn [length] in Hj. lia.
  - cbn [enumerate_from get_num_loop].
    destruct (decide (j = length good)) as [->|Hne].
    + rewrite (getitem_lookup _ _ c) by apply list_lookup_middle, eq_refl.
      cbn [mbind result_bind]. rewrite codec_ordmap_notin by assumption.
      reflexivity.
    + destruct (lookup_lt_is_Some_2 good j) as [x Hx]; [lia|].
      rewrite (getitem_lookup _ _ x) by (rewrite lookup_app_l by lia; exact Hx).
      cbn [mbind result_bind].
      destruct (symbol_at_elem x) as [p Hp].
      { exact (Forall_lookup_1 _ _ _ _ Hgood Hx). }
      rewrite (codec_ordmap_symbol _ _ Hp).
      replace (Z.of_nat j + 1) with (Z.of_nat (S j)) by lia.
      apply IH. cbn [length] in Hj. lia.
Qed.

Lemma _get_num_by_seq_dec_illegal (good more : list ascii) (c : ascii) :
  Forall (λ x, x ∈ alphabet) good → c ∉ alphabet →
  (length good < 5)%nat →
  _get_num_by_seq_dec self (good ++ c :: more)
  = Raise (IllegalCharacter (good ++ c :: more) c (ord c)
             (Z.of_nat (length good))).
Proof.
  intros Hgood Hc Hlen. unfold _get_num_by_seq_dec.
  apply Base8xCodec_init_Ok in Hinit as Hself.
  destruct Hself as (_ & _ & _ & Hself).
  replace (_powersenum self) with
    (enumerate_from (Z.of_nat 0) [r ^ 4; r ^ 3; r ^ 2; r ^ 1; r ^ 0])
    by (rewrite Hself; reflexivity).
  rewrite get_num_loop_illegal; [reflexivity | assumption.. |].
  cbn [length]. lia.
Qed.

(** ** Whole-text operations, group by group *)

Lemma encode_nil : encode self [] = Ok [].
Proof.
  unfold encode, _make_encode_gen. rewrite codec_gen_nil by lia. reflexivity.
Qed.

Lemma encode_app (pre text : list byte) :
  (length pre `mod` 4 = 0)%nat →
  encode self (pre ++ text)
  = (t1 ← encode self pre; t2 ← encode self text; mret (t1 ++ t2)).
Proof.
  intros Hmod. unfold encode, _make_encode_gen.
  rewrite codec_gen_app by first [lia | exact (nat_mod_Z _ 4 Hmod)].
  destruct (_codec_generator_factory 4 5 _ _ _ pre) as [outs1|]; [|reflexivity].
  cbn [mbind result_bind].
  destruct (_codec_generator_factory 4 5 _ _ _ text) as [outs2|]; [|reflexivity].
  cbn [mbind result_bind mret result_ret]. rewrite concat_app. reflexivity.
Qed.

Lemma decode_nil : decode self [] = Ok [].
Proof.
  unfold decode, _make_decode_gen.
  destruct codec_padchar as (pad & _ & ->). cbn [mbind result_bind mret result_ret].
  rewrite codec_gen_nil by lia. reflexivity.
Qed.

Lemma decode_app (pre text : list ascii) :
  (length pre `mod` 5 = 0)%nat →
  decode self (pre ++ text)
  = (b1 ← decode self pre; b2 ← decode self text; mret (b1 ++ b2)).
Proof.
  intros Hmod. unfold decode, _make_decode_gen.
  destruct codec_padchar as (pad & _ & ->). cbn [mbind result_bind mret result_ret].
  rewrite codec_gen_app by first [lia | exact (nat_mod_Z _ 5 Hmod)].
  destruct (_codec_generator_factory 5 4 _ _ _ pre) as [outs1|]; [|reflexivity].
  cbn [mbind result_bind].
  destruct (_codec_generator_factory 5 4 _ _ _ text) as [outs2|]; [|reflexivity].
  cbn [mbind result_bind mret result_ret]. rewrite concat_app. reflexivity.
Qed.

End codec.

(** ** A single group *)

(** Evaluate the padded chunk and the padding count of a short input whose
    length is known. *)
Ltac eval_padding :=
  repeat match goal with
  | |- context [?l ++ replicate (Z.to_nat (?n - Z.of_nat (length ?l))) ?p] =>
      let chunk := constr:(l ++ replicate (Z.to_nat (n - Z.of_nat (length l))) p) in
      let v := eval cbv in chunk in
      change chunk with v
  | |- context [?n - Z.of_nat (length ?l)] =>
      let v := eval cbv in (n - Z.of_nat (length l)) in
      change (n - Z.of_nat (length l)) with v
  end.

Section groups.
Variables (alphabet : list ascii) (self : Base8xCodec).
Hypothesis Hinit : Base8xCodec_init alphabet = Ok self.
Local Abbreviation r := (Z.of_nat (length alphabet)).

(** Encoding at most four bytes: the zero-padded quartet is converted and
    one symbol more than there are bytes is kept. *)
Lemma encode_group (x : list byte) :
  (0 < length x ≤ 4)%nat →
  ∃ V c4 c3 c2 c1 c0,
    struct_unpack_1I (x ++ replicate (4 - length x) x00) = Ok V
    ∧ symbol_at alphabet ((V / r ^ 4) mod r) c4
    ∧ symbol_at alphabet ((V / r ^ 3) mod r) c3
    ∧ symbol_at alphabet ((V / r ^ 2) mod r) c2
    ∧ symbol_at alphabet ((V / r ^ 1) mod r) c1
    ∧ symbol_at alphabet ((V / r ^ 0) mod r) c0
    ∧ encode self x = Ok (take (S (length x)) [c4; c3; c2; c1; c0]).
Proof.
  intros Hlen.
  destruct x as [|b0 [|b1 [|b2 [|b3 [|? ?]]]]]; cbn [length] in Hlen; try lia;
    cbn [length Nat.sub app replicate];
    match goal with
    | |- context [struct_unpack_1I [?a0; ?a1; ?a2; ?a3]] =>
        pose proof (struct_unpack_1I_Ok a0 a1 a2 a3) as HV
    end;
    match type of HV with _ = Ok ?v => set (V := v) in HV end;
    destruct (_encode_quartet_Ok alphabet self Hinit V)
      as (c4 & c3 & c2 & c1 & c0 & E & H4 & H3 & H2 & H1 & H0);
    exists V, c4, c3, c2, c1, c0;
    (split; [exact HV|]); do 5 (split; [assumption|]);
    unfold encode, _make_encode_gen.
  1-3: rewrite codec_gen_short by first [discriminate | cbn [length]; lia];
       eval_padding.
  4: rewrite (codec_gen_full 4 5 x00 _ _ ltac:(lia) [b0; b1; b2; b3] [] eq_refl),
       codec_gen_nil by lia.
  all: unfold codec_gen_body, _get_num_by_seq_enc; rewrite HV;
       cbn [mbind result_bind]; rewrite E; reflexivity.
Qed.

(** Decoding at most five alphabet symbols: the group is padded with the
    symbol of the largest digit, checked against [_MAXVAL], and one byte
    less than there are symbols is kept. *)
Lemma decode_group (t : list ascii) (ps : list Z) (pad : ascii)
    (p4 p3 p2 p1 p0 : Z) :
  (0 < length t ≤ 5)%nat →
  Forall2 (symbol_at alphabet) ps t →
  symbol_at alphabet (r - 1) pad →
  ps ++ replicate (5 - length t) (r - 1) = [p4; p3; p2; p1; p0] →
  decode self t
  = (let val := 0 + p4 * r ^ 4 + p3 * r ^ 3 + p2 * r ^ 2 + p1 * r ^ 1
                + p0 * r ^ 0 in
     if _MAXVAL <? val
     then Raise (IllegalSequence (t ++ replicate (5 - length t) pad) val)
     else bytes ← struct_pack_1I val; mret (take (length t - 1) bytes)).
Proof.
  intros Hlen Hps Hpad Hpos.
  destruct (codec_padchar alphabet self Hinit) as (pad' & [_ Hpad'] & Eget).
  assert (pad' = pad) as ->.
  { destruct Hpad as [_ Hpad]. congruence. }
  unfold decode, _make_decode_gen. rewrite Eget.
  cbn [mbind result_bind mret result_ret].
  destruct t as [|c4 [|c3 [|c2 [|c1 [|c0 [|? ?]]]]]]; cbn [length] in Hlen;
    try lia; clear Hlen;
    repeat match goal with
    | H : Forall2 _ _ (_ :: _) |- _ =>
        apply Forall2_cons_inv_r in H as (? & ? & ? & H & ->)
    | H : Forall2 _ _ [] |- _ => apply Forall2_nil_inv_r in H as ->
    end;
    cbn [length Nat.sub app replicate] in Hpos |- *;
    injection Hpos as <- <- <- <- <-.
  1-4: rewrite codec_gen_short by first [discriminate | cbn [length]; lia];
       eval_padding.
  5: rewrite (codec_gen_full 5 4 pad _ _ ltac:(lia) [c4; c3; c2; c1; c0] []
                eq_refl), codec_gen_nil by lia.
  all: unfold codec_gen_body, _decode_quintet;
       erewrite (_get_num_by_seq_dec_symbols alphabet self Hinit) by eassumption;
       cbv zeta;
       match goal with |- context [_MAXVAL <? ?v] =>
         destruct (_MAXVAL <? v); [reflexivity|];
         cbn [mbind result_bind]; destruct (struct_pack_1I v) as [bytes|];
         [|reflexivity]
       end;
       cbn [mbind result_bind mret result_ret concat];
       rewrite app_nil_r; reflexivity.
Qed.

Lemma _MAXVAL_ltb (val : Z) : val < 2 ^ 32 → (_MAXVAL <? val) = false.
Proof. intros Hval. unfold _MAXVAL. apply Z.ltb_ge. lia. Qed.

(** Round trip of one group: up to four bytes, through two to five symbols. *)
Lemma roundtrip_group (x : list byte) :
  (0 < length x ≤ 4)%nat →
  ∃ t, encode self x = Ok t
       ∧ length t = S (length x)
       ∧ Forall (λ c, c ∈ alphabet) t
       ∧ decode self t = Ok x.
Proof.
  intros Hlen. pose proof (codec_radix_range alphabet self Hinit) as Hr.
  destruct (encode_group x Hlen)
    as (V & c4 & c3 & c2 & c1 & c0 & HV & H4 & H3 & H2 & H1 & H0 & E).
  destruct (codec_padchar alphabet self Hinit) as (pad & Hpad & _).
  exists (take (S (length x)) [c4; c3; c2; c1; c0]).
  split; [exact E|].
  split; [rewrite length_take; cbn [length]; clear - Hlen; lia|].
  split.
  { apply Forall_take. repeat constructor; eapply symbol_at_in; eassumption. }
  clear E.
  destruct x as [|b0 [|b1 [|b2 [|b3 [|? ?]]]]]; cbn [length] in Hlen; try lia;
    clear Hlen; cbn [length Nat.sub app replicate take] in HV |- *;
    pose proof (byte_val_bounds b0) as B0.
  - (* one byte, two symbols *)
    rewrite struct_unpack_1I_Ok in HV. injection HV as HV. symmetry in HV.
    change (byte_val x00) with 0 in HV.
    destruct (be_bytes_near (byte_val b0) 0 0 V
                (0 + (V / r ^ 4) mod r * r ^ 4 + (V / r ^ 3) mod r * r ^ 3
                 + (r - 1) * r ^ 2 + (r - 1) * r ^ 1 + (r - 1) * r ^ 0)
                B0 ltac:(lia) ltac:(lia) HV) as (Hnear & _ & _).
    destruct Hnear as (Hrange & E0); [reflexivity..| |].
    { apply (tail_values r Hr V). literal_powers. lia. }
    pose proof
      (Forall2_cons_2 _ _ _ _ _ _ _ H4
         (Forall2_cons_2 _ _ _ _ _ _ _ H3
            (Forall2_nil_2 _ _ _))) as Hps.
    rewrite (decode_group [c4; c3] _ pad _ _ _ _ _
               ltac:(cbn [length]; lia) Hps Hpad
               eq_refl).
    cbv zeta. rewrite _MAXVAL_ltb by lia.
    rewrite struct_pack_1I_Ok by assumption.
    cbn [mbind result_bind mret result_ret length Nat.sub take].
    rewrite E0, byte_of_val_val. reflexivity.
  - (* two bytes, three symbols *)
    pose proof (byte_val_bounds b1) as B1.
    rewrite struct_unpack_1I_Ok in HV. injection HV as HV. symmetry in HV.
    change (byte_val x00) with 0 in HV.
    destruct (be_bytes_near (byte_val b0) (byte_val b1) 0 V
                (0 + (V / r ^ 4) mod r * r ^ 4 + (V / r ^ 3) mod r * r ^ 3
                 + (V / r ^ 2) mod r * r ^ 2 + (r - 1) * r ^ 1
                 + (r - 1) * r ^ 0)
                B0 B1 ltac:(lia) HV) as (_ & Hnear & _).
    destruct Hnear as (Hrange & E0 & E1); [reflexivity| |].
    { apply (tail_values r Hr V). literal_powers. lia. }
    pose proof
      (Forall2_cons_2 _ _ _ _ _ _ _ H4
         (Forall2_cons_2 _ _ _ _ _ _ _ H3
            (Forall2_cons_2 _ _ _ _ _ _ _ H2
               (Forall2_nil_2 _ _ _)))) as Hps.
    rewrite (decode_group [c4; c3; c2] _ pad _ _ _ _ _
               ltac:(cbn [length]; lia) Hps Hpad
               eq_refl).
    cbv zeta. rewrite _MAXVAL_ltb by lia.
    rewrite struct_pack_1I_Ok by assumption.
    cbn [mbind result_bind mret result_ret length Nat.sub take].
    rewrite E0, E1, !byte_of_val_val. reflexivity.
  - (* three bytes, four symbols *)
    pose proof (byte_val_bounds b1) as B1.
    pose proof (byte_val_bounds b2) as B2.
    rewrite struct_unpack_1I_Ok in HV. injection HV as HV. symmetry in HV.
    change (byte_val x00) with 0 in HV.
    destruct (be_bytes_near (byte_val b0) (byte_val b1) (byte_val b2) V
                (0 + (V / r ^ 4) mod r * r ^ 4 + (V / r ^ 3) mod r * r ^ 3
                 + (V / r ^ 2) mod r * r ^ 2 + (V / r ^ 1) mod r * r ^ 1
                 + (r - 1) * r ^ 0)
                B0 B1 B2 HV) as (_ & _ & Hnear).
    destruct Hnear as (Hrange & E0 & E1 & E2).
    { apply (tail_values r Hr V). literal_powers. lia. }
    pose proof
      (Forall2_cons_2 _ _ _ _ _ _ _ H4
         (Forall2_cons_2 _ _ _ _ _ _ _ H3
            (Forall2_cons_2 _ _ _ _ _ _ _ H2
               (Forall2_cons_2 _ _ _ _ _ _ _ H1
                  (Forall2_nil_2 _ _ _))))) as Hps.
    rewrite (decode_group [c4; c3; c2; c1] _ pad _ _ _ _ _
               ltac:(cbn [length]; lia) Hps Hpad
               eq_refl).
    cbv zeta. rewrite _MAXVAL_ltb by lia.
    rewrite struct_pack_1I_Ok by assumption.
    cbn [mbind result_bind mret result_ret length Nat.sub take].
    rewrite E0, E1, E2, !byte_of_val_val. reflexivity.
  - (* a full quartet, five symbols *)
    destruct (struct_pack_unpack _ _ _ _ _ HV) as (Hrange & Hpack).
    pose proof
      (Forall2_cons_2 _ _ _ _ _ _ _ H4
         (Forall2_cons_2 _ _ _ _ _ _ _ H3
            (Forall2_cons_2 _ _ _ _ _ _ _ H2
               (Forall2_cons_2 _ _ _ _ _ _ _ H1
                  (Forall2_cons_2 _ _ _ _ _ _ _ H0
                     (Forall2_nil_2 _ _ _)))))) as Hps.
    rewrite (decode_group [c4; c3; c2; c1; c0] _ pad _ _ _ _ _
               ltac:(cbn [length]; lia) Hps Hpad
               eq_refl).
    cbv zeta. rewrite (digits_recompose r Hr V Hrange).
    rewrite _MAXVAL_ltb, Hpack by lia. reflexivity.
Qed.

End groups.

(** ** Whole inputs *)

Section whole.
Variables (alphabet : list ascii) (self : Base8xCodec).
Hypothesis Hinit : Base8xCodec_init alphabet = Ok self.

(** [encode] never fails; its text decodes to the input, uses alphabet
    symbols only, and has five symbols for each full quartet and one more
    than there are bytes for a shorter last group. *)
Lemma encode_spec (data : list byte) :
  ∃ text,
    encode self data = Ok text
    ∧ decode self text = Ok data
    ∧ Forall (λ c, c ∈ alphabet) text
    ∧ length text
      = (5 * (length data / 4)
         + (if length data `mod` 4 =? 0 then 0 else S (length data `mod` 4)))%nat.
Proof.
  induction data as [data Hshort|g rest Hg (trest & Er & Dr & Ar & Lr)]
    using (chunk_ind 4 ltac:(lia)).
  - destruct data as [|b data'].
    + exists []. rewrite (encode_nil self), (decode_nil alphabet self Hinit).
      repeat split. constructor.
    + destruct (roundtrip_group alphabet self Hinit (b :: data'))
        as (t & Et & Lt & At & Dt); [cbn [length] in *; lia|].
      exists t. repeat split; try assumption. rewrite Lt.
      rewrite Nat.div_small, Nat.mod_small by assumption.
      destruct (Nat.eqb_spec (length (b :: data')) 0) as [E0|_];
        [discriminate E0 | reflexivity].
  - destruct (roundtrip_group alphabet self Hinit g) as (tg & Eg & Lg & Ag & Dg);
      [lia|].
    exists (tg ++ trest). split; [|split; [|split]].
    + rewrite (encode_app self) by (rewrite Hg; reflexivity).
      rewrite Eg, Er. reflexivity.
    + rewrite (decode_app alphabet self Hinit)
        by (rewrite Lg, Hg; reflexivity).
      rewrite Dg, Dr. reflexivity.
    + apply Forall_app. split; assumption.
    + rewrite !length_app, Lg, Lr, Hg.
      replace (4 + length rest)%nat with (length rest + 1 * 4)%nat by lia.
      rewrite Nat.div_add, Nat.Div0.mod_add by lia. lia.
Qed.

End whole.

(** ** The group that holds an illegal character *)

Section padded_group.
Context {A : Type}.
Implicit Types (text good rest : list A) (pad c : A).

Lemma padded_short text pad :
  text ≠ [] → (length text < 5)%nat →
  text ++ replicate (Z.to_nat (5 - Z.of_nat (length text))) pad
  = take 5 (text ++ replicate 4 pad).
Proof.
  intros Hne Hlen.
  assert (0 < length text)%nat by (destruct text; [congruence | cbn; lia]).
  rewrite take_app, take_ge, take_replicate by lia.
  do 2 f_equal. lia.
Qed.

Lemma padded_full text pad :
  (5 ≤ length text)%nat → take 5 text = take 5 (text ++ replicate 4 pad).
Proof.
  intros Hlen. rewrite take_app.
  replace (5 - length text)%nat with 0%nat by lia.
  cbn [take]. rewrite app_nil_r. reflexivity.
Qed.

Lemma take_group_middle good c rest :
  (length good < 5)%nat →
  take 5 (good ++ c :: rest) = good ++ c :: take (4 - length good) rest.
Proof.
  intros Hlen. rewrite take_app, take_ge by lia.
  replace (5 - length good)%nat with (S (4 - length good)) by lia.
  reflexivity.
Qed.

End padded_group.

Section illegal.
Variables (alphabet : list ascii) (self : Base8xCodec).
Hypothesis Hinit : Base8xCodec_init alphabet = Ok self.
Local Abbreviation r := (Z.of_nat (length alphabet)).

(** The first group of a text raises at its first character that is not in
    the alphabet, before the value of the group is looked at. *)
Lemma decode_first_group_illegal (good rest : list ascii) (c pad : ascii) :
  Forall (λ x, x ∈ alphabet) good → c ∉ alphabet →
  (length good < 5)%nat →
  symbol_at alphabet (r - 1) pad →
  decode self (good ++ c :: rest)
  = Raise (IllegalCharacter (take 5 (good ++ c :: rest ++ replicate 4 pad))
             c (ord c) (Z.of_nat (length good))).
Proof.
  intros Hgood Hc Hlen Hpad.
  destruct (codec_padchar alphabet self Hinit) as (pad' & [_ Hpad'] & Eget).
  assert (pad' = pad) as ->.
  { destruct Hpad as [_ Hpad]. congruence. }
  unfold decode, _make_decode_gen. rewrite Eget.
  cbn [mbind result_bind mret result_ret].
  assert (good ++ c :: rest ≠ []) as Hne by (destruct good; discriminate).
  pose proof (take_group_middle good c (rest ++ replicate 4 pad) Hlen) as Hmid.
  destruct (Nat.lt_ge_cases (length (good ++ c :: rest)) 5) as [Hshort|Hfull].
  - rewrite codec_gen_short by first [assumption | lia].
    unfold codec_gen_body.
    rewrite padded_short by assumption.
    rewrite <- app_assoc. cbn [app]. rewrite Hmid.
    rewrite (_get_num_by_seq_dec_illegal alphabet self Hinit) by assumption.
    reflexivity.
  - rewrite <- (take_drop 5 (good ++ c :: rest)) at 1.
    rewrite codec_gen_full by first [lia | rewrite length_take; lia].
    unfold codec_gen_body.
    rewrite (padded_full _ pad) by assumption.
    rewrite <- app_assoc. cbn [app]. rewrite Hmid.
    rewrite (_get_num_by_seq_dec_illegal alphabet self Hinit) by assumption.
    reflexivity.
Qed.

End illegal.

(** * The properties of the specification *)

(** Decide a closed statement about concrete characters by evaluation. *)
Ltac by_evaluation := apply (bool_decide_unpack _); vm_compute; exact I.

(** Read off the character that stands at a known position of a known
    alphabet. *)
Ltac read_symbol H :=
  let H' := fresh in
  destruct H as [_ H']; vm_compute in H'; injection H' as <-.

(** The two codecs of the module and its doctests are constructed. *)
Lemma z85codec_constructed : ∃ self, z85codec = Ok self.
Proof.
  apply Base8xCodec_init_valid.
  - by_evaluation.
  - unfold printable. by_evaluation.
  - vm_compute. lia.
Qed.

Lemma adobe85codec_constructed : ∃ self, adobe85codec = Ok self.
Proof.
  apply Base8xCodec_init_valid.
  - by_evaluation.
  - unfold printable. by_evaluation.
  - rewrite List.length_map, List.length_seq. lia.
Qed.

(** C1.  Round trip: for every byte sequence (the empty one included) and
    every constructed codec, [encode] succeeds and [decode] of its text gives
    the bytes back; in particular it raises neither [IllegalSequence] nor
    [IllegalCharacter] on that text. *)
Theorem decode_encode_roundtrip (alphabet : list ascii) (self : Base8xCodec)
    (data : list byte) :
  Base8xCodec_init alphabet = Ok self →
  ∃ text, encode self data = Ok text ∧ decode self text = Ok data.
Proof.
  intros Hinit.
  destruct (encode_spec alphabet self Hinit data) as (text & E & D & _).
  exists text. split; assumption.
Qed.

Lemma decode_encode_roundtrip_witness :
  ∃ self, z85codec = Ok self
    ∧ ∃ text, encode self [x86; x4f; xd2; x6f; xb5; x59; xf7] = Ok text
              ∧ decode self text = Ok [x86; x4f; xd2; x6f; xb5; x59; xf7].
Proof.
  destruct z85codec_constructed as [self E].
  exists self. split; [exact E|].
  exact (decode_encode_roundtrip _ self _ E).
Defined.

(** C2.  Output length: [encode] returns a text of five symbols for each
    full 4-byte group plus [5 - padCount] symbols for a non-empty remainder,
    so a remainder of 1, 2 or 3 bytes gives 2, 3 or 4 trailing symbols, and
    the empty input gives the empty text. *)
Theorem encode_length (alphabet : list ascii) (self : Base8xCodec)
    (data : list byte) :
  Base8xCodec_init alphabet = Ok self →
  ∃ text,
    encode self data = Ok text
    ∧ length text = spec_encoded_length (length data)
    ∧ (∀ k, (1 ≤ k ≤ 3)%nat → (length data `mod` 4 = k)%nat →
         length text = (5 * (length data / 4) + (k + 1))%nat)
    ∧ (data = [] → text = []).
Proof.
  intros Hinit.
  destruct (encode_spec alphabet self Hinit data) as (text & E & _ & _ & L).
  assert (length text = spec_encoded_length (length data)) as L'.
  { rewrite L. unfold spec_encoded_length.
    pose proof (Nat.mod_upper_bound (length data) 4 ltac:(lia)) as Hrem.
    destruct (Nat.eqb_spec (length data `mod` 4) 0) as [E0|N0]; lia. }
  exists text. split; [exact E|]. split; [exact L'|]. split.
  - intros k Hk Hmod. rewrite L, Hmod.
    destruct (Nat.eqb_spec k 0) as [E0|N0]; lia.
  - intros ->. rewrite (encode_nil self) in E. congruence.
Qed.

Lemma encode_length_witness :
  ∃ self, z85codec = Ok self
    ∧ ∃ text, encode self [x86; x4f; xd2; x6f; xb5; x59] = Ok text
              ∧ length text = 8%nat.
Proof.
  destruct z85codec_constructed as [self E].
  exists self. split; [exact E|].
  destruct (encode_length _ self [x86; x4f; xd2; x6f; xb5; x59] E)
    as (text & Et & Lt & _).
  exists text. split; [exact Et | exact Lt].
Defined.

(** C9.  Every symbol of [encode]'s text belongs to the codec's alphabet:
    the digit [(V // P) % radix] is in [0, radix) for every power [P] of the
    table, so indexing the alphabet stays in range and [encode] never
    raises. *)
Theorem encode_in_alphabet (alphabet : list ascii) (self : Base8xCodec)
    (data : list byte) :
  Base8xCodec_init alphabet = Ok self →
  (∃ text, encode self data = Ok text
           ∧ Forall (λ c, c ∈ _alphabet self) text)
  ∧ ∀ V P, P ∈ _powersofradix self →
      0 ≤ (V / P) mod _radix self < Z.of_nat (length (_alphabet self)).
Proof.
  intros Hinit. split.
  - destruct (encode_spec alphabet self Hinit data) as (text & E & _ & A & _).
    exists text. rewrite (codec_alphabet alphabet self Hinit).
    split; assumption.
  - intros V P _.
    rewrite (codec_radix alphabet self Hinit),
      (codec_alphabet alphabet self Hinit).
    apply Z.mod_pos_bound.
    pose proof (codec_radix_range alphabet self Hinit). lia.
Qed.

Lemma encode_in_alphabet_witness :
  ∃ self, z85codec = Ok self
    ∧ ∃ text, encode self [x00; xff; x10] = Ok text
              ∧ Forall (λ c, c ∈ _alphabet self) text.
Proof.
  destruct z85codec_constructed as [self E].
  exists self. split; [exact E|].
  exact (proj1 (encode_in_alphabet _ self [x00; xff; x10] E)).
Defined.

(** C3.  Construction succeeds exactly on the alphabets of 85 to 95 unique
    printable characters, and fails with [InvalidAlphabet] otherwise: in
    particular for 84 or 96 characters, for a character whose code point is
    outside 32..126, and for a repeated character whatever the number of
    distinct ones. *)
Theorem construction_accepts_exactly (alphabet : list ascii) :
  (NoDup alphabet ∧ Forall printable alphabet
   ∧ (85 ≤ length alphabet ≤ 95)%nat
   ↔ ∃ self, Base8xCodec_init alphabet = Ok self)
  ∧ ((∃ self, Base8xCodec_init alphabet = Ok self)
     ∨ Base8xCodec_init alphabet = Raise InvalidAlphabet)
  ∧ (length alphabet = 84%nat ∨ length alphabet = 96%nat →
     Base8xCodec_init alphabet = Raise InvalidAlphabet)
  ∧ (∀ c, c ∈ alphabet → ¬ (32 ≤ ord c ≤ 126) →
     Base8xCodec_init alphabet = Raise InvalidAlphabet)
  ∧ (¬ NoDup alphabet → Base8xCodec_init alphabet = Raise InvalidAlphabet).
Proof.
  assert (∀ self, Base8xCodec_init alphabet = Ok self →
            NoDup alphabet ∧ Forall printable alphabet
            ∧ (85 ≤ length alphabet ≤ 95)%nat) as Hvalid.
  { intros self Hinit.
    apply Base8xCodec_init_Ok in Hinit as (? & ? & ? & _). auto. }
  split; [split|].
  - intros (Hnd & Hpr & Hlen). apply Base8xCodec_init_valid; assumption.
  - intros [self Hinit]. exact (Hvalid self Hinit).
  - split; [apply Base8xCodec_init_cases|].
    repeat split.
    + intros Hlen.
      destruct (Base8xCodec_init_cases alphabet) as [[self Hinit]|]; [|assumption].
      apply Hvalid in Hinit. lia.
    + intros c Hc Hnp.
      destruct (Base8xCodec_init_cases alphabet) as [[self Hinit]|]; [|assumption].
      apply Hvalid in Hinit as (_ & Hpr & _).
      exfalso. apply Hnp. exact (proj1 (Forall_forall _ _) Hpr c Hc).
    + intros Hdup.
      destruct (Base8xCodec_init_cases alphabet) as [[self Hinit]|]; [|assumption].
      apply Hvalid in Hinit as (Hnd & _). contradiction.
Qed.

Lemma construction_accepts_exactly_witness :
  (∃ self, Base8xCodec_init (map ascii_of_nat (seq 32 85)) = Ok self)
  ∧ Base8xCodec_init (map ascii_of_nat (seq 32 84)) = Raise InvalidAlphabet
  ∧ Base8xCodec_init (map ascii_of_nat (seq 32 96)) = Raise InvalidAlphabet
  ∧ Base8xCodec_init (map ascii_of_nat (seq 31 85)) = Raise InvalidAlphabet
  ∧ Base8xCodec_init (map ascii_of_nat (seq 43 85)) = Raise InvalidAlphabet
  ∧ Base8xCodec_init ("a"%char :: map ascii_of_nat (seq 32 85))
    = Raise InvalidAlphabet.
Proof.
  split; [|split; [|split; [|split; [|split]]]].
  - destruct (construction_accepts_exactly (map ascii_of_nat (seq 32 85)))
      as (Hiff & _). apply Hiff. split; [|split].
    + by_evaluation.
    + unfold printable. by_evaluation.
    + rewrite List.length_map, List.length_seq. lia.
  - destruct (construction_accepts_exactly (map ascii_of_nat (seq 32 84)))
      as (_ & _ & Hsize & _). apply Hsize. left. reflexivity.
  - destruct (construction_accepts_exactly (map ascii_of_nat (seq 32 96)))
      as (_ & _ & Hsize & _). apply Hsize. right. reflexivity.
  - destruct (construction_accepts_exactly (map ascii_of_nat (seq 31 85)))
      as (_ & _ & _ & Hchar & _). apply (Hchar (ascii_of_nat 31)).
    + left.
    + vm_compute. intros [H _]. apply H. reflexivity.
  - destruct (construction_accepts_exactly (map ascii_of_nat (seq 43 85)))
      as (_ & _ & _ & Hchar & _). apply (Hchar (ascii_of_nat 127)).
    + by_evaluation.
    + vm_compute. intros [_ H]. apply H. reflexivity.
  - destruct (construction_accepts_exactly
                ("a"%char :: map ascii_of_nat (seq 32 85)))
      as (_ & _ & _ & _ & Hdup). apply Hdup. by_evaluation.
Defined.

(** C4.  With the alphabet of the code points 33 to 117, decoding ["s8W-$"]
    raises [IllegalSequence]: the five symbols resolve to [0x100000002],
    which exceeds [2^32 - 1]; the exception carries the text of the group and
    that value. *)
Theorem adobe85_decode_illegal_sequence :
  ∃ self,
    adobe85codec = Ok self
    ∧ _alphabet self = map ascii_of_nat (seq 33 85)
    ∧ decode self (list_ascii_of_string "s8W-$")
      = Raise (IllegalSequence (list_ascii_of_string "s8W-$") 4294967298)
    ∧ _MAXVAL = 2 ^ 32 - 1 ∧ _MAXVAL < 4294967298.
Proof.
  destruct adobe85codec_constructed as [self E]. exists self.
  split; [exact E|].
  split; [exact (codec_alphabet _ _ E)|].
  split; [|split; reflexivity].
  destruct (codec_padchar _ _ E) as (pad & Hpad & _).
  (* the digits of s, 8, W, - and $ in this alphabet *)
  rewrite (decode_group _ self E (list_ascii_of_string "s8W-$")
             [82; 23; 54; 12; 3] pad 82 23 54 12 3);
    [reflexivity | cbn; lia | | exact Hpad | reflexivity].
  repeat apply Forall2_cons_2; try apply Forall2_nil_2;
    (split; [lia | reflexivity]).
Qed.

(** C5, as worded: the symbols after the letters would be 21.  They are not:
    whatever list closes the alphabet after the 62 digits and letters has 23
    elements. *)
Lemma z85codec_alphabet_not_21_symbols :
  ¬ ∃ self symbols,
      z85codec = Ok self
      ∧ length symbols = 21%nat
      ∧ _alphabet self = spec_z85_alphanumerics ++ symbols.
Proof.
  intros (self & symbols & E & Hlen & Ha).
  rewrite (codec_alphabet _ _ E) in Ha.
  apply (f_equal length) in Ha. rewrite length_app, Hlen in Ha.
  vm_compute in Ha. discriminate Ha.
Qed.

(** C5, amended.  The alphabet of the predefined Z85 codec is, in order, the
    digits, the lowercase letters, the uppercase letters and the 23 symbols
    [.-:+=^!/*?&<>()[]{}@%$#]: 85 symbols in all. *)
Theorem z85codec_alphabet :
  ∃ self,
    z85codec = Ok self
    ∧ _alphabet self = spec_z85_alphabet
    ∧ length spec_z85_symbols = 23%nat
    ∧ length (_alphabet self) = 85%nat
    ∧ _radix self = 85.
Proof.
  destruct z85codec_constructed as [self E]. exists self.
  pose proof (codec_alphabet _ _ E) as Ha.
  pose proof (codec_radix _ _ E) as Hr.
  split; [exact E|]. rewrite Hr, Ha. repeat split; reflexivity.
Qed.

(** C6.  The predefined Z85 codec encodes the eight bytes
    [86 4f d2 6f b5 59 f7 5b] as ["HelloWorld"]. *)
Theorem z85codec_encode_HelloWorld :
  ∃ self,
    z85codec = Ok self
    ∧ encode self [x86; x4f; xd2; x6f; xb5; x59; xf7; x5b]
      = Ok (list_ascii_of_string "HelloWorld").
Proof.
  destruct z85codec_constructed as [self E]. exists self.
  split; [exact E|].
  change [x86; x4f; xd2; x6f; xb5; x59; xf7; x5b]
    with ([x86; x4f; xd2; x6f] ++ [xb5; x59; xf7; x5b]).
  rewrite (encode_app self) by reflexivity.
  destruct (encode_group _ self E [x86; x4f; xd2; x6f])
    as (V & c4 & c3 & c2 & c1 & c0 & HV & H4 & H3 & H2 & H1 & H0 & ->);
    [cbn; lia|].
  vm_compute in HV. injection HV as <-.
  read_symbol H4. read_symbol H3. read_symbol H2. read_symbol H1.
  read_symbol H0.
  destruct (encode_group _ self E [xb5; x59; xf7; x5b])
    as (V & c4 & c3 & c2 & c1 & c0 & HV & H4 & H3 & H2 & H1 & H0 & ->);
    [cbn; lia|].
  vm_compute in HV. injection HV as <-.
  read_symbol H4. read_symbol H3. read_symbol H2. read_symbol H1.
  read_symbol H0.
  reflexivity.
Qed.

(** C7.  With the alphabet of the code points 33 to 117, the four bytes
    [ff ff ff ff] are encoded as ["s8W-!"]; each symbol of a group is the
    alphabet symbol at the digit [(V // P) % radix], for the powers [P] of
    the radix from the most to the least significant. *)
Theorem adobe85_encode_ffffffff :
  ∃ self,
    adobe85codec = Ok self
    ∧ _alphabet self = map ascii_of_nat (seq 33 85)
    ∧ encode self [xff; xff; xff; xff] = Ok (list_ascii_of_string "s8W-!")
    ∧ _powersofradix self
      = [_radix self ^ 4; _radix self ^ 3; _radix self ^ 2; _radix self ^ 1;
         _radix self ^ 0]
    ∧ ∀ V, ∃ c4 c3 c2 c1 c0,
        _encode_quartet self V = Ok [c4; c3; c2; c1; c0]
        ∧ symbol_at (_alphabet self) ((V / _radix self ^ 4) mod _radix self) c4
        ∧ symbol_at (_alphabet self) ((V / _radix self ^ 3) mod _radix self) c3
        ∧ symbol_at (_alphabet self) ((V / _radix self ^ 2) mod _radix self) c2
        ∧ symbol_at (_alphabet self) ((V / _radix self ^ 1) mod _radix self) c1
        ∧ symbol_at (_alphabet self) ((V / _radix self ^ 0) mod _radix self) c0.
Proof.
  destruct adobe85codec_constructed as [self E]. exists self.
  pose proof (codec_alphabet _ _ E) as Ha.
  pose proof (codec_radix _ _ E) as Hr.
  pose proof (codec_powersofradix _ _ E) as Hp.
  pose proof (_encode_quartet_Ok _ _ E) as Hq.
  split; [exact E|]. split; [exact Ha|]. rewrite Hr, Ha. split; [|split].
  - destruct (encode_group _ self E [xff; xff; xff; xff])
      as (V & c4 & c3 & c2 & c1 & c0 & HV & H4 & H3 & H2 & H1 & H0 & ->);
      [cbn; lia|].
    vm_compute in HV. injection HV as <-.
    read_symbol H4. read_symbol H3. read_symbol H2. read_symbol H1.
    read_symbol H0.
    reflexivity.
  - exact Hp.
  - exact Hq.
Qed.

(** C8.  A character that is absent from the alphabet makes [decode] raise
    [IllegalCharacter] with the group, the character, its code point and its
    position in the group, when the groups before it decode and the
    characters before it in its group are alphabet symbols; no bytes are
    returned. *)
Theorem decode_illegal_character (alphabet : list ascii) (self : Base8xCodec)
    (pre good rest : list ascii) (c pad : ascii) :
  Base8xCodec_init alphabet = Ok self →
  (length pre `mod` 5 = 0)%nat →
  (∃ bytes, decode self pre = Ok bytes) →
  (length good < 5)%nat →
  Forall (λ x, x ∈ _alphabet self) good →
  c ∉ _alphabet self →
  last (_alphabet self) = Some pad →
  decode self (pre ++ good ++ c :: rest)
  = Raise (IllegalCharacter (take 5 (good ++ c :: rest ++ replicate 4 pad))
             c (ord c) (Z.of_nat (length good))).
Proof.
  intros Hinit Hpre [bytes Hbytes] Hlen Hgood Hc Hpad.
  rewrite (codec_alphabet alphabet self Hinit) in Hgood, Hc, Hpad.
  rewrite (decode_app alphabet self Hinit) by assumption.
  rewrite Hbytes. cbn [mbind result_bind].
  rewrite (decode_first_group_illegal alphabet self Hinit good rest c pad);
    [reflexivity | assumption.. |].
  pose proof (codec_radix_range alphabet self Hinit) as Hr.
  rewrite last_lookup in Hpad. split; [lia|].
  rewrite <- Hpad. f_equal. lia.
Qed.

Lemma decode_illegal_character_witness :
  ∃ self,
    z85codec = Ok self
    ∧ decode self (list_ascii_of_string "HelloWo ld")
      = Raise (IllegalCharacter (list_ascii_of_string "Wo ld") " "%char 32 2).
Proof.
  destruct z85codec_constructed as [self E]. exists self.
  split; [exact E|].
  pose proof (codec_alphabet _ _ E) as Ha.
  refine (decode_illegal_character _ _ (list_ascii_of_string "Hello")
            (list_ascii_of_string "Wo") (list_ascii_of_string "ld")
            " "%char "#"%char E _ _ _ _ _ _).
  - reflexivity.
  - destruct (codec_padchar _ _ E) as (pad & Hpad & _).
    (* the digits of H, e, l, l and o in the Z85 alphabet *)
    rewrite (decode_group _ self E (list_ascii_of_string "Hello")
               [43; 14; 21; 21; 24] pad 43 14 21 21 24);
      [eexists; reflexivity | cbn; lia | | exact Hpad | reflexivity].
    repeat apply Forall2_cons_2; try apply Forall2_nil_2;
      (split; [lia | reflexivity]).
  - cbn [length list_ascii_of_string]. lia.
  - rewrite Ha. by_evaluation.
  - rewrite Ha. by_evaluation.
  - rewrite Ha. reflexivity.
Defined.

(** C10.  [decode] accepts a trailing group of one symbol, a length that
    [encode] never produces: when the group padded with the symbol of the
    largest digit passes the [2^32 - 1] check, the one-symbol text decodes to
    no bytes, and a text made of whole groups followed by that symbol decodes
    as the text without it. *)
Theorem decode_trailing_single_symbol (alphabet : list ascii)
    (self : Base8xCodec) (c : ascii) (p : Z) :
  Base8xCodec_init alphabet = Ok self →
  symbol_at (_alphabet self) p c →
  p * _radix self ^ 4
  + (_radix self - 1)
    * (_radix self ^ 3 + _radix self ^ 2 + _radix self + 1) ≤ 2 ^ 32 - 1 →
  decode self [c] = Ok []
  ∧ ∀ text, (length text `mod` 5 = 0)%nat →
      decode self (text ++ [c]) = decode self text.
Proof.
  intros Hinit Hc Hval.
  rewrite (codec_alphabet alphabet self Hinit) in Hc.
  rewrite (codec_radix alphabet self Hinit) in Hval.
  pose proof (codec_radix_range alphabet self Hinit) as Hr.
  destruct (codec_padchar alphabet self Hinit) as (pad & Hpad & _).
  assert (decode self [c] = Ok []) as Hone.
  { rewrite (decode_group alphabet self Hinit [c] [p] pad _ _ _ _ _
               ltac:(cbn [length]; lia)
               (Forall2_cons_2 _ _ _ _ _ _ _ Hc (Forall2_nil_2 _ _ _))
               Hpad eq_refl).
    cbv zeta.
    pose proof (symbol_at_bounds alphabet p c Hc) as Hp.
    set (r := Z.of_nat (length alphabet)) in *.
    assert (0 + p * r ^ 4 + (r - 1) * r ^ 3 + (r - 1) * r ^ 2
            + (r - 1) * r ^ 1 + (r - 1) * r ^ 0
            = p * r ^ 4 + (r - 1) * (r ^ 3 + r ^ 2 + r + 1)) as -> by ring.
    assert (0 ≤ p * r ^ 4 + (r - 1) * (r ^ 3 + r ^ 2 + r + 1)).
    { assert (0 ≤ r ^ 4) by (apply Z.pow_nonneg; lia).
      assert (0 ≤ r ^ 3) by (apply Z.pow_nonneg; lia).
      assert (0 ≤ r ^ 2) by (apply Z.pow_nonneg; lia).
      nia. }
    rewrite _MAXVAL_ltb, struct_pack_1I_Ok by lia. reflexivity. }
  split; [exact Hone|].
  intros text Htext.
  rewrite (decode_app alphabet self Hinit) by assumption.
  rewrite Hone. destruct (decode self text) as [bytes|e]; [|reflexivity].
  cbn [mbind result_bind mret result_ret]. rewrite app_nil_r. reflexivity.
Qed.

Lemma decode_trailing_single_symbol_witness :
  ∃ self,
    z85codec = Ok self
    ∧ decode self ["0"%char] = Ok []
    ∧ decode self (list_ascii_of_string "HelloWorld0")
      = decode self (list_ascii_of_string "HelloWorld").
Proof.
  destruct z85codec_constructed as [self E]. exists self.
  split; [exact E|].
  assert (symbol_at (_alphabet self) 0 "0"%char) as Hc.
  { rewrite (codec_alphabet _ _ E). split; [lia | reflexivity]. }
  assert (0 * _radix self ^ 4
          + (_radix self - 1)
            * (_radix self ^ 3 + _radix self ^ 2 + _radix self + 1)
          ≤ 2 ^ 32 - 1) as Hval.
  { rewrite (codec_radix _ _ E). vm_compute. discriminate. }
  destruct (decode_trailing_single_symbol _ self "0"%char 0 E Hc Hval)
    as [Hone Hall].
  split; [exact Hone|].
  exact (Hall (list_ascii_of_string "HelloWorld") eq_refl).
Defined.

(** * Further properties of the code *)

(** ** The chunker *)

Section chunkby_spec.
Context {A : Type}.
Implicit Types (seq : list A) (stride : Z) (padding : option A).

(** What the chunker records about a chunk: its padding count is within the
    stride, and its length is the stride when a padding value was given and
    the number of real items otherwise. *)
Lemma _chunkby_short_any stride seq padding :
  seq ≠ [] →
  Z.of_nat (length seq) < stride →
  _chunkby seq stride padding
  = Ok [(match padding with
         | Some p =>
             seq ++ replicate (Z.to_nat (stride - Z.of_nat (length seq))) p
         | None => seq
         end, stride - Z.of_nat (length seq))].
Proof.
  intros Hne Hlt. unfold _chunkby.
  destruct (Z.leb_spec stride 0) as [?|_]; [lia|].
  rewrite chunkby_loop_short by lia. rewrite Z.add_0_l. cbn [app].
  destruct (Z.eqb_spec (Z.of_nat (length seq)) 0) as [H0|_].
  - destruct seq; [congruence | cbn in H0; lia].
  - reflexivity.
Qed.

Lemma _chunkby_spec stride seq padding :
  0 < stride →
  ∃ chunks,
    _chunkby seq stride padding = Ok chunks
    ∧ concat (map (λ cn, take (Z.to_nat (stride - cn.2)) cn.1) chunks) = seq
    ∧ Forall (λ cn, 0 ≤ cn.2 < stride
                    ∧ match padding with
                      | Some p =>
                          Z.of_nat (length cn.1) = stride
                          ∧ drop (Z.to_nat (stride - cn.2)) cn.1
                            = replicate (Z.to_nat cn.2) p
                      | None => Z.of_nat (length cn.1) = stride - cn.2
                      end) chunks
    ∧ map snd chunks
      = replicate (Z.to_nat (Z.of_nat (length seq) / stride)) 0
        ++ (if Z.of_nat (length seq) mod stride =? 0 then []
            else [stride - Z.of_nat (length seq) mod stride]).
Proof.
  intros Hpos.
  induction seq as [seq Hshort|g rest Hg (chunks & E & Hcat & Hall & Hpad)]
    using (chunk_ind (Z.to_nat stride) ltac:(lia)).
  - destruct seq as [|x seq'].
    + exists []. rewrite _chunkby_nil by assumption.
      repeat split; constructor.
    + set (seq := x :: seq') in *.
      assert (0 < Z.of_nat (length seq) < stride) as Hlen
        by (subst seq; rewrite length_cons in *; lia).
      eexists. split; [apply _chunkby_short_any; [discriminate | lia]|].
      rewrite Z.div_small, Z.mod_small by lia.
      destruct (Z.eqb_spec (Z.of_nat (length seq)) 0) as [?|_]; [lia|].
      cbn [map concat fst snd replicate Z.to_nat app].
      split; [|split; [|reflexivity]].
      * rewrite app_nil_r.
        replace (Z.to_nat (stride - (stride - Z.of_nat (length seq))))
          with (length seq) by lia.
        destruct padding; [rewrite take_app_length | rewrite take_ge by lia];
          reflexivity.
      * constructor; [|constructor]. cbn [fst snd]. split; [lia|].
        destruct padding; [|lia]. split.
        -- rewrite length_app, length_replicate. lia.
        -- replace (Z.to_nat (stride - (stride - Z.of_nat (length seq))))
             with (length seq) by lia.
           rewrite drop_app_length. reflexivity.
  - exists ((g, 0) :: chunks).
    rewrite _chunkby_full, E by lia. split; [reflexivity|].
    cbn [map concat fst snd]. split; [|split].
    + rewrite Hcat, Z.sub_0_r, take_ge by lia. reflexivity.
    + constructor; [|assumption]. cbn [fst snd]. split; [lia|].
      destruct padding; [|lia]. split; [lia|].
      rewrite Z.sub_0_r, drop_ge by lia. reflexivity.
    + rewrite Hpad, length_app, Nat2Z.inj_add.
      replace (Z.of_nat (length g)) with (1 * stride) by lia.
      replace ((1 * stride + Z.of_nat (length rest)) mod stride)
        with (Z.of_nat (length rest) mod stride)
        by (rewrite Z.add_comm, Z_mod_plus_full; reflexivity).
      rewrite Z.div_add_l by lia.
      replace (Z.to_nat (1 + Z.of_nat (length rest) / stride))
        with (S (Z.to_nat (Z.of_nat (length rest) / stride))).
      * reflexivity.
      * assert (0 ≤ Z.of_nat (length rest) / stride)
          by (apply Z.div_pos; lia).
        lia.
Qed.

End chunkby_spec.

(** X1.  The chunks of [_chunkby], each cut back by its padding count, are
    the input again; without a padding value the chunks themselves are. *)
Theorem chunkby_reassembles {A} (seq : list A) (stride : Z)
    (padding : option A) :
  0 < stride →
  ∃ chunks,
    _chunkby seq stride padding = Ok chunks
    ∧ concat (map (λ cn, slice_to cn.1 (stride - cn.2)) chunks) = seq
    ∧ (padding = None → concat (map fst chunks) = seq).
Proof.
  intros Hpos.
  destruct (_chunkby_spec stride seq padding Hpos)
    as (chunks & E & Hcat & Hall & _).
  exists chunks. split; [exact E|].
  assert (map (λ cn : list A * Z, slice_to cn.1 (stride - cn.2)) chunks
          = map (λ cn, take (Z.to_nat (stride - cn.2)) cn.1) chunks) as Hslice.
  { apply map_ext_Forall. eapply Forall_impl; [exact Hall|].
    intros [chunk np] [Hnp _]. cbn [fst snd] in *. unfold slice_to.
    destruct (Z.ltb_spec (stride - np) 0); [lia | reflexivity]. }
  split; [rewrite Hslice; exact Hcat|].
  intros ->. etransitivity; [|exact Hcat]. f_equal.
  apply map_ext_Forall. eapply Forall_impl; [exact Hall|].
  intros [chunk np] [_ Hlen]. cbn [fst snd] in *.
  rewrite take_ge by lia. reflexivity.
Qed.

Lemma chunkby_reassembles_witness :
  ∃ chunks,
    _chunkby (list_ascii_of_string "abcde") 3 None = Ok chunks
    ∧ concat (map fst chunks) = list_ascii_of_string "abcde".
Proof.
  destruct (chunkby_reassembles (list_ascii_of_string "abcde") 3 None
              ltac:(lia)) as (chunks & E & _ & Hcat).
  exists chunks. split; [exact E | exact (Hcat eq_refl)].
Defined.

(** X2.  The number of chunks is the input length divided by the stride,
    rounded up: one chunk with padding count 0 for each full stride, then one
    more with the count of missing items when items remain.  The empty input
    yields no chunk. *)
Theorem chunkby_padding_counts {A} (seq : list A) (stride : Z)
    (padding : option A) :
  0 < stride →
  ∃ chunks,
    _chunkby seq stride padding = Ok chunks
    ∧ map snd chunks
      = replicate (Z.to_nat (Z.of_nat (length seq) / stride)) 0
        ++ (if Z.of_nat (length seq) mod stride =? 0 then []
            else [stride - Z.of_nat (length seq) mod stride])
    ∧ Z.of_nat (length chunks)
      = Z.of_nat (length seq) / stride
        + (if Z.of_nat (length seq) mod stride =? 0 then 0 else 1)
    ∧ (seq = [] → chunks = []).
Proof.
  intros Hpos.
  destruct (_chunkby_spec stride seq padding Hpos)
    as (chunks & E & _ & _ & Hpad).
  exists chunks. split; [exact E|]. split; [exact Hpad|].
  assert (0 ≤ Z.of_nat (length seq) / stride) by (apply Z.div_pos; lia).
  split.
  - rewrite <- (length_map snd chunks), Hpad, length_app, length_replicate.
    destruct (Z.of_nat (length seq) mod stride =? 0); cbn [length]; lia.
  - intros ->. rewrite _chunkby_nil in E by assumption. congruence.
Qed.

Lemma chunkby_padding_counts_witness :
  ∃ chunks,
    _chunkby (list_ascii_of_string "abcd") 3 (Some "X"%char) = Ok chunks
    ∧ map snd chunks = [0; 2].
Proof.
  destruct (chunkby_padding_counts (list_ascii_of_string "abcd") 3
              (Some "X"%char) ltac:(lia)) as (chunks & E & Hpad & _).
  exists chunks. split; [exact E | exact Hpad].
Defined.

(** X3.  With a padding value every chunk has exactly [stride] items, and
    the items past the real ones are copies of the padding value. *)
Theorem chunkby_padded_chunks {A} (seq : list A) (stride : Z) (p : A) :
  0 < stride →
  ∃ chunks,
    _chunkby seq stride (Some p) = Ok chunks
    ∧ Forall (λ cn, Z.of_nat (length cn.1) = stride
                    ∧ 0 ≤ cn.2 < stride
                    ∧ cn.1 = take (Z.to_nat (stride - cn.2)) cn.1
                             ++ replicate (Z.to_nat cn.2) p) chunks.
Proof.
  intros Hpos.
  destruct (_chunkby_spec stride seq (Some p) Hpos)
    as (chunks & E & _ & Hall & _).
  exists chunks. split; [exact E|].
  eapply Forall_impl; [exact Hall|].
  intros [chunk np] (Hnp & Hlen & Hfill). cbn [fst snd] in *.
  split; [exact Hlen|]. split; [exact Hnp|].
  rewrite <- Hfill. symmetry. apply take_drop.
Qed.

Lemma chunkby_padded_chunks_witness :
  ∃ chunks,
    _chunkby (list_ascii_of_string "abcd") 3 (Some "X"%char) = Ok chunks
    ∧ Forall (λ cn, Z.of_nat (length cn.1) = 3) chunks.
Proof.
  destruct (chunkby_padded_chunks (list_ascii_of_string "abcd") 3 "X"%char
              ltac:(lia)) as (chunks & E & Hall).
  exists chunks. split; [exact E|].
  eapply Forall_impl; [exact Hall|]. intros cn (Hlen & _). exact Hlen.
Defined.

(** ** Alphabet validation *)

Lemma validate_loop_early_exit (pre rest : list ascii) (seen : gset ascii)
    (accept : list ascii) :
  validate_loop pre seen accept = None →
  validate_loop (pre ++ rest) seen accept = None.
Proof.
  revert seen accept. induction pre as [|item pre IH]; intros seen accept Hv.
  - discriminate Hv.
  - cbn [app validate_loop] in *.
    destruct (bool_decide (item ∈ seen)
              || negb ((32 <=? ord item) && (ord item <=? 126)));
      [reflexivity | apply IH, Hv].
Qed.

Lemma printable_elem (c : ascii) :
  printable c → c ∈ map ascii_of_nat (seq 32 95).
Proof.
  intros [Hlo Hhi]. unfold ord in *.
  apply list_elem_of_fmap. exists (nat_of_ascii c).
  split; [symmetry; apply ascii_nat_embedding|].
  apply elem_of_seq. unfold nat_of_ascii. lia.
Qed.

(** There are 95 printable characters, so no more can be distinct. *)
Lemma printable_NoDup_length (l : list ascii) :
  NoDup l → Forall printable l → (length l ≤ 95)%nat.
Proof.
  intros Hnd Hpr.
  change 95%nat with (length (map ascii_of_nat (seq 32 95))).
  apply submseteq_length, NoDup_submseteq; [assumption|].
  intros c Hc. apply printable_elem.
  exact (proj1 (Forall_forall _ _) Hpr c Hc).
Qed.

(** X4.  Validation stops at the first repeated or unprintable character,
    whatever follows it, and by the pigeonhole principle it has stopped after
    96 characters at the latest: a candidate that extends a rejected one, or
    any 96 characters, is rejected by the loop itself. *)
Theorem validate_alphabet_early_exit (pre rest : list ascii) :
  validate_loop pre ∅ [] = None ∨ (95 < length pre)%nat →
  validate_loop (pre ++ rest) ∅ [] = None
  ∧ _validate_alphabet (pre ++ rest) = None
  ∧ Base8xCodec_init (pre ++ rest) = Raise InvalidAlphabet.
Proof.
  intros Hpre.
  assert (validate_loop pre ∅ [] = None) as Hnone.
  { destruct Hpre as [Hnone|Hlen]; [exact Hnone|].
    destruct (validate_loop pre ∅ []) as [accept|] eqn:Hv; [|reflexivity].
    apply validate_loop_Some in Hv as (_ & Hnd & Hpr & _).
    pose proof (printable_NoDup_length pre Hnd Hpr). lia. }
  pose proof (validate_loop_early_exit pre rest ∅ [] Hnone) as Hloop.
  split; [exact Hloop|].
  assert (_validate_alphabet (pre ++ rest) = None) as Hv
    by (unfold _validate_alphabet; rewrite Hloop; reflexivity).
  split; [exact Hv|].
  unfold Base8xCodec_init. rewrite Hv. reflexivity.
Qed.

Lemma validate_alphabet_early_exit_witness :
  Base8xCodec_init
    (list_ascii_of_string "aa" ++ map ascii_of_nat (seq 32 85))
  = Raise InvalidAlphabet.
Proof.
  apply (validate_alphabet_early_exit (list_ascii_of_string "aa")).
  left. vm_compute. reflexivity.
Defined.

(** ** The fields of a constructed codec *)

(** X5.  The reverse map of a constructed codec is the inverse of indexing
    its alphabet: a character is mapped to [p] exactly when it stands at
    position [p], and has no entry exactly when it is not in the alphabet;
    positions are below the radix. *)
Theorem ordmap_inverts_alphabet (alphabet : list ascii) (self : Base8xCodec)
    (c : ascii) (p : Z) :
  Base8xCodec_init alphabet = Ok self →
  (_ordmap self !! c = Some p ↔ symbol_at (_alphabet self) p c)
  ∧ (_ordmap self !! c = None ↔ c ∉ _alphabet self)
  ∧ (_ordmap self !! c = Some p → 0 ≤ p < _radix self).
Proof.
  intros Hinit.
  rewrite (codec_alphabet alphabet self Hinit),
    (codec_radix alphabet self Hinit).
  assert (_ordmap self !! c = Some p → symbol_at alphabet p c) as Hsome.
  { intros Hp. destruct (decide (c ∈ alphabet)) as [Hin|Hout].
    - destruct (symbol_at_elem alphabet c Hin) as [p' Hp'].
      rewrite (codec_ordmap_symbol alphabet self Hinit p' c Hp') in Hp.
      injection Hp as <-. exact Hp'.
    - rewrite (codec_ordmap_notin alphabet self Hinit c Hout) in Hp.
      discriminate Hp. }
  split; [split; [exact Hsome | apply codec_ordmap_symbol; exact Hinit]|].
  split; [split|].
  - intros Hnone Hin. destruct (symbol_at_elem alphabet c Hin) as [p' Hp'].
    rewrite (codec_ordmap_symbol alphabet self Hinit p' c Hp') in Hnone.
    discriminate Hnone.
  - apply codec_ordmap_notin. exact Hinit.
  - intros Hp. apply (symbol_at_bounds alphabet p c), Hsome, Hp.
Qed.

Lemma ordmap_inverts_alphabet_witness :
  ∃ self, z85codec = Ok self
    ∧ _ordmap self !! "H"%char = Some 43
    ∧ _ordmap self !! " "%char = None.
Proof.
  destruct z85codec_constructed as [self E]. exists self.
  split; [exact E|].
  pose proof (codec_alphabet _ _ E) as Ha.
  split.
  - apply (ordmap_inverts_alphabet _ self "H"%char 43 E).
    rewrite Ha. split; [lia | reflexivity].
  - apply (ordmap_inverts_alphabet _ self " "%char 0 E).
    rewrite Ha. by_evaluation.
Defined.

(** ** Quartets and their values *)

Lemma byte_val_of_val (z : Z) : 0 ≤ z < 256 → byte_val (byte_of_val z) = z.
Proof.
  intros Hz. unfold byte_val, byte_of_val.
  destruct (Byte.of_N (Z.to_N z)) as [b|] eqn:Hb.
  - apply Byte.to_of_N in Hb. change (default x00 (Some b)) with b.
    rewrite Hb. lia.
  - apply Byte.of_N_None_iff in Hb. lia.
Qed.

Lemma struct_unpack_pack (V : Z) :
  0 ≤ V < 2 ^ 32 →
  ∃ b0 b1 b2 b3,
    struct_pack_1I V = Ok [b0; b1; b2; b3]
    ∧ struct_unpack_1I [b0; b1; b2; b3] = Ok V.
Proof.
  intros HV. do 4 eexists. split; [apply struct_pack_1I_Ok, HV|].
  rewrite struct_unpack_1I_Ok.
  rewrite !byte_val_of_val by (apply Z.mod_pos_bound; lia).
  f_equal. literal_powers. Z.div_mod_to_equations. lia.
Qed.

(** X6.  [_get_num_by_seq_enc] and [_decode_quintet] are inverse to each
    other between the 4-byte strings and the values [0 .. _MAXVAL]; another
    length or a value outside the range raises [struct.error]. *)
Theorem quartet_value_roundtrip :
  (∀ seq V, _get_num_by_seq_enc seq = Ok V →
     length seq = 4%nat ∧ 0 ≤ V ≤ _MAXVAL ∧ _decode_quintet V = Ok seq)
  ∧ (∀ V, 0 ≤ V ≤ _MAXVAL →
       ∃ seq, _decode_quintet V = Ok seq ∧ length seq = 4%nat
              ∧ _get_num_by_seq_enc seq = Ok V)
  ∧ (∀ seq, length seq ≠ 4%nat → _get_num_by_seq_enc seq = Raise StructError)
  ∧ (∀ V, V < 0 ∨ _MAXVAL < V → _decode_quintet V = Raise StructError).
Proof.
  unfold _get_num_by_seq_enc, _decode_quintet, _MAXVAL.
  split; [|split; [|split]].
  - intros seq V HV.
    destruct seq as [|b0 [|b1 [|b2 [|b3 [|? ?]]]]]; try discriminate HV.
    destruct (struct_pack_unpack b0 b1 b2 b3 V HV) as [Hrange Hpack].
    split; [reflexivity|]. split; [lia | exact Hpack].
  - intros V HV.
    destruct (struct_unpack_pack V ltac:(lia)) as (b0 & b1 & b2 & b3 & Hp & Hu).
    exists [b0; b1; b2; b3]. split; [exact Hp|]. split; [reflexivity | exact Hu].
  - intros seq Hlen.
    destruct seq as [|b0 [|b1 [|b2 [|b3 [|? ?]]]]]; try reflexivity.
    contradiction Hlen. reflexivity.
  - intros V HV. unfold struct_pack_1I.
    destruct (Z.ltb_spec V 0); [reflexivity|].
    destruct (Z.ltb_spec (2 ^ 32 - 1) V); [reflexivity | lia].
Qed.

(** ** Groups of five symbols *)

Section radix_digits.
Variable r : Z.
Hypothesis Hr : 85 ≤ r ≤ 95.

(** The digits of a value are determined by the value. *)
Lemma digits_unique (p4 p3 p2 p1 p0 : Z) :
  0 ≤ p4 < r → 0 ≤ p3 < r → 0 ≤ p2 < r → 0 ≤ p1 < r → 0 ≤ p0 < r →
  ∀ V, V = 0 + p4 * r ^ 4 + p3 * r ^ 3 + p2 * r ^ 2 + p1 * r ^ 1
           + p0 * r ^ 0 →
  (V / r ^ 4) mod r = p4 ∧ (V / r ^ 3) mod r = p3 ∧ (V / r ^ 2) mod r = p2
  ∧ (V / r ^ 1) mod r = p1 ∧ (V / r ^ 0) mod r = p0.
Proof.
  intros H4 H3 H2 H1 H0 V ->.
  set (V := 0 + p4 * r ^ 4 + p3 * r ^ 3 + p2 * r ^ 2 + p1 * r ^ 1
            + p0 * r ^ 0).
  assert (0 < r ^ 2 ∧ 0 < r ^ 3 ∧ 0 < r ^ 4) as (P2 & P3 & P4)
    by (repeat split; apply Z.pow_pos_nonneg; lia).
  assert (r ^ 2 = r * r ∧ r ^ 3 = r * r ^ 2 ∧ r ^ 4 = r * r ^ 3)
    as (E2 & E3 & E4) by (repeat split; ring).
  assert (V / r ^ 0 = V) as Q0 by (rewrite Z.pow_0_r; apply Z.div_1_r).
  assert (V / r ^ 1 = p4 * r ^ 3 + p3 * r ^ 2 + p2 * r + p1) as Q1.
  { symmetry. apply (Z.div_unique _ _ _ p0); [left; lia | subst V; ring]. }
  assert (V / r ^ 2 = p4 * r ^ 2 + p3 * r + p2) as Q2.
  { symmetry. apply (Z.div_unique _ _ _ (p1 * r + p0));
      [left; nia | subst V; ring]. }
  assert (V / r ^ 3 = p4 * r + p3) as Q3.
  { symmetry. apply (Z.div_unique _ _ _ (p2 * r ^ 2 + p1 * r + p0));
      [left; nia | subst V; ring]. }
  assert (V / r ^ 4 = p4) as Q4.
  { symmetry.
    apply (Z.div_unique _ _ _ (p3 * r ^ 3 + p2 * r ^ 2 + p1 * r + p0));
      [left; nia | subst V; ring]. }
  rewrite Q0, Q1, Q2, Q3, Q4.
  repeat split; symmetry.
  - apply (Z.mod_unique _ _ 0); [left; lia | ring].
  - apply (Z.mod_unique _ _ p4); [left; lia | ring].
  - apply (Z.mod_unique _ _ (p4 * r + p3)); [left; lia | ring].
  - apply (Z.mod_unique _ _ (p4 * r ^ 2 + p3 * r + p2)); [left; lia | ring].
  - apply (Z.mod_unique _ _ (p4 * r ^ 3 + p3 * r ^ 2 + p2 * r + p1));
      [left; lia | subst V; ring].
Qed.

Lemma digits_value_nonneg (p4 p3 p2 p1 p0 : Z) :
  0 ≤ p4 → 0 ≤ p3 → 0 ≤ p2 → 0 ≤ p1 → 0 ≤ p0 →
  0 ≤ 0 + p4 * r ^ 4 + p3 * r ^ 3 + p2 * r ^ 2 + p1 * r ^ 1 + p0 * r ^ 0.
Proof.
  intros H4 H3 H2 H1 H0.
  assert (∀ k, 0 ≤ k → 0 ≤ r ^ k) as Hpow
    by (intros k Hk; apply Z.pow_nonneg; lia).
  pose proof (Hpow 4 ltac:(lia)). pose proof (Hpow 3 ltac:(lia)).
  pose proof (Hpow 2 ltac:(lia)). pose proof (Hpow 1 ltac:(lia)).
  pose proof (Hpow 0 ltac:(lia)). nia.
Qed.

End radix_digits.

Lemma list_of_length_5 {A} (l : list A) :
  length l = 5%nat → ∃ a b c d e, l = [a; b; c; d; e].
Proof.
  intros Hlen.
  destruct l as [|a [|b [|c [|d [|e [|? ?]]]]]]; try discriminate Hlen.
  eauto 6.
Qed.

Section alphabet_texts.
Variables (alphabet : list ascii) (self : Base8xCodec).
Hypothesis Hinit : Base8xCodec_init alphabet = Ok self.
Local Abbreviation r := (Z.of_nat (length alphabet)).

(** A text is over the alphabet, or has a first character that is not. *)
Lemma alphabet_split (l : list ascii) :
  Forall (λ x, x ∈ alphabet) l
  ∨ ∃ good c more,
      l = good ++ c :: more ∧ Forall (λ x, x ∈ alphabet) good ∧ c ∉ alphabet.
Proof.
  induction l as [|x l [IH|(good & c & more & -> & Hgood & Hc)]].
  - left. constructor.
  - destruct (decide (x ∈ alphabet)) as [Hx|Hx].
    + left. constructor; assumption.
    + right. exists [], x, l. repeat split; [constructor | assumption].
  - destruct (decide (x ∈ alphabet)) as [Hx|Hx].
    + right. exists (x :: good), c, more.
      repeat split; [constructor; assumption | assumption].
    + right. exists [], x, (good ++ c :: more).
      repeat split; [constructor | assumption].
Qed.

Lemma symbols_of_text (l : list ascii) :
  Forall (λ x, x ∈ alphabet) l →
  ∃ ps, Forall2 (symbol_at alphabet) ps l ∧ Forall (λ p, 0 ≤ p < r) ps.
Proof.
  induction 1 as [|x l Hx _ (ps & Hps & Hbounds)].
  - exists []. split; constructor.
  - destruct (symbol_at_elem alphabet x Hx) as [p Hp].
    exists (p :: ps). split; constructor; try assumption.
    exact (symbol_at_bounds alphabet p x Hp).
Qed.

Lemma symbol_at_functional (p : Z) (c c' : ascii) :
  symbol_at alphabet p c → symbol_at alphabet p c' → c = c'.
Proof. intros [_ Hc] [_ Hc']. congruence. Qed.

(** Five alphabet symbols: their value, and the exception when it does not
    fit 32 bits. *)
Lemma _get_num_by_seq_dec_text (seq : list ascii) :
  length seq = 5%nat → Forall (λ x, x ∈ alphabet) seq →
  ∃ p4 p3 p2 p1 p0,
    Forall2 (symbol_at alphabet) [p4; p3; p2; p1; p0] seq
    ∧ 0 ≤ p4 < r ∧ 0 ≤ p3 < r ∧ 0 ≤ p2 < r ∧ 0 ≤ p1 < r ∧ 0 ≤ p0 < r
    ∧ _get_num_by_seq_dec self seq
      = (let val := 0 + p4 * r ^ 4 + p3 * r ^ 3 + p2 * r ^ 2 + p1 * r ^ 1
                    + p0 * r ^ 0 in
         if _MAXVAL <? val then Raise (IllegalSequence seq val) else Ok val).
Proof.
  intros Hlen Hseq.
  destruct (list_of_length_5 seq Hlen) as (c4 & c3 & c2 & c1 & c0 & ->).
  destruct (symbols_of_text _ Hseq) as (ps & Hps & Hbounds).
  repeat match goal with
  | H : Forall2 _ _ (_ :: _) |- _ =>
      apply Forall2_cons_inv_r in H as (? & ? & ? & H & ->)
  | H : Forall2 _ _ [] |- _ => apply Forall2_nil_inv_r in H as ->
  end.
  repeat match goal with
  | H : Forall _ (_ :: _) |- _ => apply Forall_cons in H as [? H]
  end.
  do 5 eexists. split; [repeat (apply Forall2_cons_2; [eassumption|]);
                        apply Forall2_nil_2|].
  do 5 (split; [assumption|]).
  apply (_get_num_by_seq_dec_symbols alphabet self Hinit); assumption.
Qed.

End alphabet_texts.

Lemma quintet_of_value (alphabet : list ascii) (self : Base8xCodec) (V : Z) :
  Base8xCodec_init alphabet = Ok self →
  0 ≤ V ≤ _MAXVAL →
  ∃ seq, _encode_quartet self V = Ok seq
         ∧ length seq = 5%nat
         ∧ Forall (λ c, c ∈ _alphabet self) seq
         ∧ _get_num_by_seq_dec self seq = Ok V.
Proof.
  intros Hinit HV. unfold _MAXVAL in HV.
  pose proof (codec_radix_range alphabet self Hinit) as Hr.
  destruct (_encode_quartet_Ok alphabet self Hinit V)
    as (c4 & c3 & c2 & c1 & c0 & E & H4 & H3 & H2 & H1 & H0).
  exists [c4; c3; c2; c1; c0]. split; [exact E|]. split; [reflexivity|].
  split.
  { rewrite (codec_alphabet alphabet self Hinit).
    repeat constructor; eapply symbol_at_in; eassumption. }
  rewrite (_get_num_by_seq_dec_symbols alphabet self Hinit _ _ _ _ _ _ _ _ _ _
             H4 H3 H2 H1 H0).
  cbv zeta. rewrite (digits_recompose _ Hr V) by lia.
  rewrite _MAXVAL_ltb by lia. reflexivity.
Qed.

Lemma value_of_quintet (alphabet : list ascii) (self : Base8xCodec)
    (seq : list ascii) (V : Z) :
  Base8xCodec_init alphabet = Ok self →
  length seq = 5%nat →
  _get_num_by_seq_dec self seq = Ok V →
  0 ≤ V ≤ _MAXVAL ∧ _encode_quartet self V = Ok seq.
Proof.
  intros Hinit Hlen HV.
  pose proof (codec_radix_range alphabet self Hinit) as Hr.
  destruct (alphabet_split alphabet seq)
    as [Hseq|(good & c & more & -> & Hgood & Hc)].
  2:{ rewrite (_get_num_by_seq_dec_illegal alphabet self Hinit) in HV;
        [discriminate HV | assumption.. |].
      rewrite length_app, length_cons in Hlen. lia. }
  destruct (_get_num_by_seq_dec_text alphabet self Hinit seq Hlen Hseq)
    as (p4 & p3 & p2 & p1 & p0 & Hps & B4 & B3 & B2 & B1 & B0 & Hval).
  rewrite Hval in HV. cbv zeta in HV.
  match type of HV with (if _MAXVAL <? ?v then _ else _) = _ =>
    set (val := v) in *; destruct (Z.ltb_spec _MAXVAL val) as [|Hfit];
    [discriminate HV|]
  end.
  injection HV as <-.
  assert (0 ≤ val) by (apply digits_value_nonneg; lia).
  split; [lia|].
  destruct (digits_unique _ Hr p4 p3 p2 p1 p0 B4 B3 B2 B1 B0 val eq_refl)
    as (D4 & D3 & D2 & D1 & D0).
  destruct (_encode_quartet_Ok alphabet self Hinit val)
    as (c4 & c3 & c2 & c1 & c0 & E & H4 & H3 & H2 & H1 & H0).
  rewrite E. f_equal.
  rewrite D4 in H4. rewrite D3 in H3. rewrite D2 in H2. rewrite D1 in H1.
  rewrite D0 in H0.
  destruct (list_of_length_5 seq Hlen) as (x4 & x3 & x2 & x1 & x0 & ->).
  repeat match goal with
  | H : Forall2 _ (_ :: _) (_ :: _) |- _ =>
      apply Forall2_cons in H as [? H]
  end.
  repeat f_equal; eapply symbol_at_functional; eassumption.
Qed.

(** X7.  [_get_num_by_seq_dec] undoes [_encode_quartet]: a value that fits
    32 bits becomes five alphabet symbols whose value is the one encoded. *)
Theorem quintet_of_value_roundtrip (alphabet : list ascii)
    (self : Base8xCodec) (V : Z) :
  Base8xCodec_init alphabet = Ok self →
  0 ≤ V ≤ _MAXVAL →
  ∃ seq, _encode_quartet self V = Ok seq
         ∧ length seq = 5%nat
         ∧ Forall (λ c, c ∈ _alphabet self) seq
         ∧ _get_num_by_seq_dec self seq = Ok V.
Proof. apply quintet_of_value. Qed.

Lemma quintet_of_value_roundtrip_witness :
  ∃ self, z85codec = Ok self
    ∧ ∃ seq, _encode_quartet self 4294967295 = Ok seq
             ∧ _get_num_by_seq_dec self seq = Ok 4294967295.
Proof.
  destruct z85codec_constructed as [self E]. exists self.
  split; [exact E|].
  destruct (quintet_of_value_roundtrip _ self 4294967295 E)
    as (seq & Eq & _ & _ & Dq); [unfold _MAXVAL; lia|].
  exists seq. split; [exact Eq | exact Dq].
Defined.

(** X8.  [_encode_quartet] undoes [_get_num_by_seq_dec]: when five
    characters have a value, the value is within 32 bits and is encoded as
    these five characters again, so no two groups share a value. *)
Theorem value_of_quintet_roundtrip (alphabet : list ascii)
    (self : Base8xCodec) (seq : list ascii) (V : Z) :
  Base8xCodec_init alphabet = Ok self →
  length seq = 5%nat →
  _get_num_by_seq_dec self seq = Ok V →
  0 ≤ V ≤ _MAXVAL ∧ _encode_quartet self V = Ok seq.
Proof. apply value_of_quintet. Qed.

Lemma value_of_quintet_roundtrip_witness :
  ∃ self, z85codec = Ok self
    ∧ _encode_quartet self 2253378159 = Ok (list_ascii_of_string "Hello").
Proof.
  destruct z85codec_constructed as [self E]. exists self.
  split; [exact E|].
  apply (value_of_quintet_roundtrip _ self (list_ascii_of_string "Hello") _ E
           eq_refl).
  (* the digits of H, e, l, l and o in the Z85 alphabet *)
  change (list_ascii_of_string "Hello") with ["H"; "e"; "l"; "l"; "o"]%char.
  rewrite (_get_num_by_seq_dec_symbols _ self E 43 14 21 21 24
             "H" "e" "l" "l" "o"); [reflexivity|..];
    (split; [lia | reflexivity]).
Defined.

(** ** The outcomes of [decode] *)

Lemma struct_pack_1I_inv (V : Z) (bytes : list byte) :
  struct_pack_1I V = Ok bytes →
  0 ≤ V < 2 ^ 32 ∧ length bytes = 4%nat ∧ struct_unpack_1I bytes = Ok V.
Proof.
  intros Hpack.
  assert (0 ≤ V < 2 ^ 32) as HV.
  { unfold struct_pack_1I in Hpack.
    destruct (Z.ltb_spec V 0); [discriminate Hpack|].
    destruct (Z.ltb_spec (2 ^ 32 - 1) V); [discriminate Hpack | lia]. }
  destruct (struct_unpack_pack V HV) as (b0 & b1 & b2 & b3 & Hp & Hu).
  rewrite Hp in Hpack. injection Hpack as <-.
  split; [exact HV|]. split; [reflexivity | exact Hu].
Qed.

Lemma decode_outcome_app_l (alphabet pre rest : list ascii) (e : exn) :
  decode_outcome alphabet pre (Raise e) →
  decode_outcome alphabet (pre ++ rest) (Raise e).
Proof.
  destruct e; cbn [decode_outcome]; try tauto.
  intros (Hc & Hrest). split; [|exact Hrest].
  apply elem_of_app. left. exact Hc.
Qed.

Lemma decode_outcome_app_r (alphabet pre rest : list ascii) (e : exn) :
  decode_outcome alphabet rest (Raise e) →
  decode_outcome alphabet (pre ++ rest) (Raise e).
Proof.
  destruct e; cbn [decode_outcome]; try tauto.
  intros (Hc & Hrest). split; [|exact Hrest].
  apply elem_of_app. right. exact Hc.
Qed.

Section outcomes.
Variables (alphabet : list ascii) (self : Base8xCodec).
Hypothesis Hinit : Base8xCodec_init alphabet = Ok self.
Local Abbreviation r := (Z.of_nat (length alphabet)).

Lemma decode_group_outcome (t : list ascii) :
  (0 < length t ≤ 5)%nat → decode_outcome alphabet t (decode self t).
Proof.
  intros Hlen. pose proof (codec_radix_range alphabet self Hinit) as Hr.
  destruct (codec_padchar alphabet self Hinit) as (pad & Hpad & _).
  destruct (alphabet_split alphabet t)
    as [Ht|(good & c & more & -> & Hgood & Hc)].
  - destruct (symbols_of_text alphabet t Ht) as (ps & Hps & Hbounds).
    pose proof (Forall2_length _ _ _ Hps) as Hlps.
    destruct (list_of_length_5 (ps ++ replicate (5 - length t) (r - 1)))
      as (p4 & p3 & p2 & p1 & p0 & Heq).
    { rewrite length_app, length_replicate. lia. }
    assert (Forall (λ p, 0 ≤ p < r) [p4; p3; p2; p1; p0]) as Hb5.
    { rewrite <- Heq. apply Forall_app. split; [exact Hbounds|].
      apply Forall_replicate. lia. }
    repeat match goal with
    | H : Forall _ (_ :: _) |- _ => apply Forall_cons in H as [? H]
    end.
    rewrite (decode_group alphabet self Hinit t ps pad p4 p3 p2 p1 p0
               Hlen Hps Hpad Heq).
    cbv zeta.
    match goal with |- context [_MAXVAL <? ?v] =>
      set (val := v); assert (0 ≤ val) by (apply digits_value_nonneg; lia);
      destruct (Z.ltb_spec _MAXVAL val) as [Hbig|Hfit]
    end.
    + cbn [decode_outcome]. split; [exact Hbig|]. split.
      * rewrite length_app, length_replicate. lia.
      * apply Forall_app. split; [exact Ht|].
        apply Forall_replicate. exact (symbol_at_in alphabet _ _ Hpad).
    + unfold _MAXVAL in Hfit. rewrite struct_pack_1I_Ok by lia.
      cbn [mbind result_bind mret result_ret decode_outcome].
      split; [exact Ht|].
      rewrite length_take. cbn [length].
      assert (length t = 1 ∨ length t = 2 ∨ length t = 3 ∨ length t = 4
              ∨ length t = 5)%nat as Hcases by lia.
      destruct Hcases as [-> | [-> | [-> | [-> | ->]]]]; reflexivity.
  - assert (length good < 5)%nat as Hgl
      by (rewrite length_app, length_cons in Hlen; lia).
    rewrite (decode_first_group_illegal alphabet self Hinit good more c pad)
      by assumption.
    cbn [decode_outcome].
    split; [apply elem_of_app; right; left|].
    split; [exact Hc|]. split; [reflexivity|]. split; [lia|]. split.
    + rewrite length_take, length_app, length_cons, length_app,
        length_replicate. lia.
    + rewrite take_group_middle, Nat2Z.id by assumption.
      apply list_lookup_middle. reflexivity.
Qed.

Lemma decode_spec (text : list ascii) :
  decode_outcome alphabet text (decode self text).
Proof.
  induction text as [text Hshort|g rest Hg IH] using (chunk_ind 5 ltac:(lia)).
  - destruct text as [|c text'].
    + rewrite (decode_nil alphabet self Hinit). split; [constructor|reflexivity].
    + apply decode_group_outcome. cbn [length] in *. lia.
  - pose proof (decode_group_outcome g ltac:(lia)) as Hgroup.
    rewrite (decode_app alphabet self Hinit) by (rewrite Hg; reflexivity).
    destruct (decode self g) as [b1|e1];
      [|apply decode_outcome_app_l; exact Hgroup].
    cbn [mbind result_bind].
    destruct (decode self rest) as [b2|e2];
      [|apply decode_outcome_app_r; exact IH].
    cbn [mbind result_bind mret result_ret decode_outcome] in *.
    destruct Hgroup as [Hga Hgl]. destruct IH as [Hra Hrl].
    split; [apply Forall_app; split; assumption|].
    rewrite !length_app, Hgl, Hrl, Hg.
    replace (5 + length rest)%nat with (length rest + 1 * 5)%nat by lia.
    rewrite Nat.div_add, Nat.Div0.mod_add by lia.
    change (5 / 5)%nat with 1%nat. change (5 `mod` 5)%nat with 0%nat. lia.
Qed.

(** A full group that decodes is the encoding of its four bytes. *)
Lemma encode_decode_group (g : list ascii) (d : list byte) :
  length g = 5%nat → decode self g = Ok d →
  encode self d = Ok g ∧ length d = 4%nat.
Proof.
  intros Hg Hd.
  destruct (codec_padchar alphabet self Hinit) as (pad & _ & Eget).
  unfold decode, _make_decode_gen in Hd. rewrite Eget in Hd.
  cbn [mbind result_bind mret result_ret] in Hd.
  rewrite <- (app_nil_r g) in Hd.
  rewrite codec_gen_full, codec_gen_nil in Hd by lia.
  unfold codec_gen_body in Hd.
  destruct (_get_num_by_seq_dec self g) as [val|] eqn:Hval;
    [|discriminate Hd].
  cbn [mbind result_bind] in Hd. unfold _decode_quintet in Hd.
  destruct (struct_pack_1I val) as [bytes|] eqn:Hpack; [|discriminate Hd].
  destruct (struct_pack_1I_inv val bytes Hpack) as (_ & Hlen & Hunpack).
  cbn [mbind result_bind mret result_ret concat] in Hd.
  injection Hd as <-. rewrite app_nil_r.
  change (4 - 0) with (Z.of_nat 4). unfold slice_to.
  destruct (Z.ltb_spec (Z.of_nat 4) 0) as [?|_]; [lia|].
  rewrite Nat2Z.id, take_ge by lia. split; [|exact Hlen].
  destruct (value_of_quintet alphabet self g val Hinit Hg Hval) as [_ Henc].
  unfold encode, _make_encode_gen. rewrite <- (app_nil_r bytes).
  rewrite codec_gen_full, codec_gen_nil by lia.
  unfold codec_gen_body, _get_num_by_seq_enc. rewrite Hunpack.
  cbn [mbind result_bind]. rewrite Henc.
  cbn [mbind result_bind mret result_ret concat]. rewrite app_nil_r.
  unfold slice_to. destruct (Z.ltb_spec (5 - 0) 0) as [?|_]; [lia|].
  rewrite take_ge by (change (Z.to_nat (5 - 0)) with 5%nat; lia).
  reflexivity.
Qed.

Lemma encode_decode_groups (text : list ascii) (data : list byte) :
  (length text `mod` 5 = 0)%nat → decode self text = Ok data →
  encode self data = Ok text ∧ (length data `mod` 4 = 0)%nat.
Proof.
  revert data.
  induction text as [text Hshort|g rest Hg IH] using (chunk_ind 5 ltac:(lia));
    intros data Hmod Hd.
  - rewrite Nat.mod_small in Hmod by assumption.
    destruct text; [|discriminate Hmod].
    rewrite (decode_nil alphabet self Hinit) in Hd. injection Hd as <-.
    split; [apply encode_nil | reflexivity].
  - rewrite (decode_app alphabet self Hinit) in Hd
      by (rewrite Hg; reflexivity).
    destruct (decode self g) as [d1|] eqn:Hd1; [|discriminate Hd].
    cbn [mbind result_bind] in Hd.
    destruct (decode self rest) as [d2|] eqn:Hd2; [|discriminate Hd].
    cbn [mbind result_bind mret result_ret] in Hd. injection Hd as <-.
    destruct (encode_decode_group g d1 Hg Hd1) as [He1 Hl1].
    destruct (IH d2) as [He2 Hl2]; [|reflexivity|].
    { rewrite length_app, Hg in Hmod.
      replace (5 + length rest)%nat with (length rest + 1 * 5)%nat in Hmod
        by lia.
      rewrite Nat.Div0.mod_add in Hmod. exact Hmod. }
    split.
    + rewrite (encode_app self) by (rewrite Hl1; reflexivity).
      rewrite He1, He2. reflexivity.
    + rewrite length_app, Hl1.
      replace (4 + length d2)%nat with (length d2 + 1 * 4)%nat by lia.
      rewrite Nat.Div0.mod_add. exact Hl2.
Qed.

End outcomes.



(** X10.  When [decode] returns bytes, every character of the text is in the
    alphabet, and there are four bytes for each full group of five
    characters plus one byte less than the characters of a shorter last
    group. *)
Theorem decode_success (alphabet : list ascii) (self : Base8xCodec)
    (text : list ascii) (data : list byte) :
  Base8xCodec_init alphabet = Ok self →
  decode self text = Ok data →
  Forall (λ c, c ∈ _alphabet self) text
  ∧ length data
    = (4 * (length text / 5) + ((length text `mod` 5) - 1))%nat.
Proof.
  intros Hinit Hd.
  pose proof (decode_spec alphabet self Hinit text) as Hspec.
  rewrite Hd in Hspec. rewrite (codec_alphabet alphabet self Hinit).
  exact Hspec.
Qed.

Lemma decode_success_witness :
  ∃ self data,
    z85codec = Ok self
    ∧ decode self (list_ascii_of_string "Hello") = Ok data
    ∧ length data = 4%nat.
Proof.
  destruct z85codec_constructed as [self E].
  destruct (codec_padchar _ _ E) as (pad & Hpad & _).
  assert (∃ data, decode self (list_ascii_of_string "Hello") = Ok data)
    as [data Hd].
  { rewrite (decode_group _ self E (list_ascii_of_string "Hello")
               [43; 14; 21; 21; 24] pad 43 14 21 21 24);
      [eexists; reflexivity | cbn; lia | | exact Hpad | reflexivity].
    repeat apply Forall2_cons_2; try apply Forall2_nil_2;
      (split; [lia | reflexivity]). }
  exists self, data. split; [exact E|]. split; [exact Hd|].
  exact (proj2 (decode_success _ self _ data E Hd)).
Defined.

(** X11.  On whole groups [encode] undoes [decode]: a text of a multiple of
    five characters that decodes is the encoding of its bytes, whose number
    is a multiple of four. *)
Theorem encode_decode_roundtrip (alphabet : list ascii) (self : Base8xCodec)
    (text : list ascii) (data : list byte) :
  Base8xCodec_init alphabet = Ok self →
  (length text `mod` 5 = 0)%nat →
  decode self text = Ok data →
  encode self data = Ok text ∧ (length data `mod` 4 = 0)%nat.
Proof. intros Hinit. apply (encode_decode_groups alphabet self Hinit). Qed.

Lemma encode_decode_roundtrip_witness :
  ∃ self data,
    z85codec = Ok self
    ∧ decode self (list_ascii_of_string "Hello") = Ok data
    ∧ encode self data = Ok (list_ascii_of_string "Hello").
Proof.
  destruct z85codec_constructed as [self E].
  destruct (codec_padchar _ _ E) as (pad & Hpad & _).
  assert (∃ data, decode self (list_ascii_of_string "Hello") = Ok data)
    as [data Hd].
  { rewrite (decode_group _ self E (list_ascii_of_string "Hello")
               [43; 14; 21; 21; 24] pad 43 14 21 21 24);
      [eexists; reflexivity | cbn; lia | | exact Hpad | reflexivity].
    repeat apply Forall2_cons_2; try apply Forall2_nil_2;
      (split; [lia | reflexivity]). }
  exists self, data. split; [exact E|]. split; [exact Hd|].
  exact (proj1 (encode_decode_roundtrip _ self
                  (list_ascii_of_string "Hello") data E eq_refl Hd)).
Defined.

(** X12.  [encode] is injective: two byte strings with the same text are
    equal. *)
Theorem encode_injective (alphabet : list ascii) (self : Base8xCodec)
    (data1 data2 : list byte) :
  Base8xCodec_init alphabet = Ok self →
  encode self data1 = encode self data2 →
  data1 = data2.
Proof.
  intros Hinit Heq.
  destruct (encode_spec alphabet self Hinit data1) as (t1 & E1 & D1 & _).
  destruct (encode_spec alphabet self Hinit data2) as (t2 & E2 & D2 & _).
  rewrite E1, E2 in Heq. injection Heq as <-. congruence.
Qed.

Lemma encode_injective_witness :
  ∃ self, z85codec = Ok self ∧ [x00; xff] = [x00; xff].
Proof.
  destruct z85codec_constructed as [self E]. exists self.
  split; [exact E|].
  exact (encode_injective _ self [x00; xff] [x00; xff] E eq_refl).
Defined.

(** X13.  Encoding can be done piecewise at 4-byte boundaries: after a
    prefix of a multiple of four bytes, the text of the whole is the text of
    the prefix followed by the text of the rest. *)
Theorem encode_concat (alphabet : list ascii) (self : Base8xCodec)
    (pre rest : list byte) :
  Base8xCodec_init alphabet = Ok self →
  (length pre `mod` 4 = 0)%nat →
  ∃ t1 t2,
    encode self pre = Ok t1 ∧ encode self rest = Ok t2
    ∧ encode self (pre ++ rest) = Ok (t1 ++ t2).
Proof.
  intros Hinit Hmod.
  destruct (encode_spec alphabet self Hinit pre) as (t1 & E1 & _).
  destruct (encode_spec alphabet self Hinit rest) as (t2 & E2 & _).
  exists t1, t2. split; [exact E1|]. split; [exact E2|].
  rewrite (encode_app self) by assumption.
  rewrite E1, E2. reflexivity.
Qed.

Lemma encode_concat_witness :
  ∃ self t1 t2,
    z85codec = Ok self
    ∧ encode self [x86; x4f; xd2; x6f] = Ok t1
    ∧ encode self [xb5; x59] = Ok t2
    ∧ encode self [x86; x4f; xd2; x6f; xb5; x59] = Ok (t1 ++ t2).
Proof.
  destruct z85codec_constructed as [self E].
  destruct (encode_concat _ self [x86; x4f; xd2; x6f] [xb5; x59] E eq_refl)
    as (t1 & t2 & E1 & E2 & E12).
  exists self, t1, t2. auto.
Defined.

(** X14.  Decoding can be done piecewise at 5-character boundaries: after a
    prefix of a multiple of five characters, the whole decodes to the bytes
    of the prefix followed by those of the rest, and raises what the prefix
    raises, or else what the rest raises. *)
Theorem decode_concat (alphabet : list ascii) (self : Base8xCodec)
    (pre rest : list ascii) :
  Base8xCodec_init alphabet = Ok self →
  (length pre `mod` 5 = 0)%nat →
  decode self (pre ++ rest)
  = match decode self pre, decode self rest with
    | Ok b1, Ok b2 => Ok (b1 ++ b2)
    | Ok _, Raise e => Raise e
    | Raise e, _ => Raise e
    end.
Proof.
  intros Hinit Hmod.
  rewrite (decode_app alphabet self Hinit) by assumption.
  destruct (decode self pre); [|reflexivity].
  destruct (decode self rest); reflexivity.
Qed.

Lemma decode_concat_witness :
  ∃ self,
    z85codec = Ok self
    ∧ decode self (list_ascii_of_string "HelloWorld")
      = match decode self (list_ascii_of_string "Hello"),
              decode self (list_ascii_of_string "World") with
        | Ok b1, Ok b2 => Ok (b1 ++ b2)
        | Ok _, Raise e => Raise e
        | Raise e, _ => Raise e
        end.
Proof.
  destruct z85codec_constructed as [self E]. exists self.
  split; [exact E|].
  exact (decode_concat _ self (list_ascii_of_string "Hello")
           (list_ascii_of_string "World") E eq_refl).
Defined.

(** X15.  No codec decodes every text over its alphabet: five copies of the
    last alphabet symbol have the value [radix^5 - 1], which exceeds
    [_MAXVAL] for every radix from 85 up, so [decode] raises the
    illegal-sequence error on them. *)
Theorem decode_rejects_largest_group (alphabet : list ascii)
    (self : Base8xCodec) (pad : ascii) :
  Base8xCodec_init alphabet = Ok self →
  last (_alphabet self) = Some pad →
  decode self (replicate 5 pad)
  = Raise (IllegalSequence (replicate 5 pad) (_radix self ^ 5 - 1))
  ∧ _MAXVAL < _radix self ^ 5 - 1.
Proof.
  intros Hinit Hlast.
  rewrite (codec_alphabet alphabet self Hinit) in Hlast.
  rewrite (codec_radix alphabet self Hinit).
  pose proof (codec_radix_range alphabet self Hinit) as Hr.
  set (r := Z.of_nat (length alphabet)) in *.
  assert (symbol_at alphabet (r - 1) pad) as Hpad.
  { rewrite last_lookup in Hlast. split; [lia|].
    rewrite <- Hlast. f_equal. lia. }
  assert (_MAXVAL < r ^ 5 - 1) as Hbig.
  { unfold _MAXVAL. assert (85 ^ 5 ≤ r ^ 5) by (apply Z.pow_le_mono_l; lia).
    change (85 ^ 5) with 4437053125 in *. literal_powers. lia. }
  split; [|exact Hbig].
  rewrite (decode_group alphabet self Hinit (replicate 5 pad)
             (replicate 5 (r - 1)) pad (r - 1) (r - 1) (r - 1) (r - 1) (r - 1));
    [| cbn; lia
     | repeat (apply Forall2_cons_2; [exact Hpad|]); apply Forall2_nil_2
     | exact Hpad | reflexivity].
  cbv zeta. fold r.
  replace (0 + (r - 1) * r ^ 4 + (r - 1) * r ^ 3 + (r - 1) * r ^ 2
           + (r - 1) * r ^ 1 + (r - 1) * r ^ 0) with (r ^ 5 - 1) by ring.
  destruct (Z.ltb_spec _MAXVAL (r ^ 5 - 1)) as [_|?]; [|lia].
  reflexivity.
Qed.

Lemma decode_rejects_largest_group_witness :
  ∃ self,
    z85codec = Ok self
    ∧ decode self (list_ascii_of_string "#####")
      = Raise (IllegalSequence (list_ascii_of_string "#####")
                 (_radix self ^ 5 - 1)).
Proof.
  destruct z85codec_constructed as [self E]. exists self.
  split; [exact E|].
  refine (proj1 (decode_rejects_largest_group _ self "#"%char E _)).
  rewrite (codec_alphabet _ _ E). reflexivity.
Defined.

(** ** The key generator *)

Lemma w92codec_constructed : ∃ self, w92codec = Ok self.
Proof.
  apply Base8xCodec_init_valid.
  - by_evaluation.
  - unfold printable. by_evaluation.
  - vm_compute. lia.
Qed.

(** X16.  [use] asks for the number of bits rounded up to whole bytes: the
    least number of bytes that hold [nbits] bits.  It is negative exactly
    when [nbits] is -8 or less. *)
Theorem use_nbytes_rounds_up (nbits : Z) :
  nbits ≤ 8 * use_nbytes nbits < nbits + 8
  ∧ (0 ≤ use_nbytes nbits ↔ -8 < nbits).
Proof.
  unfold use_nbytes.
  destruct (Z.ltb_spec 0 (nbits mod 8)); Z.div_mod_to_equations; lia.
Qed.

(** X17.  In the line for a WordPress variable the secret always starts at
    the same column: the quoted name and its comma are padded with at least
    one space to [JSIZE] = 20 characters after ["define("], and the line ends
    with the quoted secret and [");"]. *)
Theorem pronouncewpline_alignment (wpvar secret : list ascii) :
  wpvar ∈ WPVARS →
  JSIZE = 20
  ∧ (∃ k, (1 ≤ k)%nat
          ∧ take 28 (pronouncewpline wpvar secret)
            = list_ascii_of_string "define('" ++ wpvar
              ++ list_ascii_of_string "'," ++ replicate k " "%char
              ++ ["'"%char])
  ∧ drop 28 (pronouncewpline wpvar secret)
    = secret ++ list_ascii_of_string "');".
Proof.
  intros Hvar. split; [reflexivity|].
  unfold WPVARS in Hvar. cbn [map] in Hvar.
  repeat (apply elem_of_cons in Hvar as [->|Hvar]);
    [..|apply elem_of_nil in Hvar; contradiction];
    (split; [|reflexivity]).
  - exists 9%nat. split; [lia | reflexivity].
  - exists 2%nat. split; [lia | reflexivity].
  - exists 4%nat. split; [lia | reflexivity].
  - exists 8%nat. split; [lia | reflexivity].
  - exists 8%nat. split; [lia | reflexivity].
  - exists 1%nat. split; [lia | reflexivity].
  - exists 3%nat. split; [lia | reflexivity].
  - exists 7%nat. split; [lia | reflexivity].
Qed.

Lemma pronouncewpline_alignment_witness :
  drop 28 (pronouncewpline (list_ascii_of_string "NONCE_KEY")
             (list_ascii_of_string "s3cr3t"))
  = list_ascii_of_string "s3cr3t');".
Proof.
  refine (proj2 (proj2 (pronouncewpline_alignment
                          (list_ascii_of_string "NONCE_KEY")
                          (list_ascii_of_string "s3cr3t") _))).
  by_evaluation.
Defined.

Lemma map_seq_shift {A} (f : nat → A) (n a len : nat) :
  map (λ i, f (i + n)%nat) (seq a len) = map f (seq (a + n) len).
Proof.
  revert a. induction len as [|len IH]; intros a; [reflexivity|].
  cbn [seq map]. f_equal. exact (IH (S a)).
Qed.

Lemma encoded_length_spec (n : nat) :
  (5 * (n / 4) + (if n `mod` 4 =? 0 then 0 else S (n `mod` 4)))%nat
  = spec_encoded_length n.
Proof.
  unfold spec_encoded_length.
  pose proof (Nat.mod_upper_bound n 4 ltac:(lia)) as Hrem.
  destruct (Nat.eqb_spec (n `mod` 4) 0) as [E0|N0]; lia.
Qed.

Lemma use_nbytes_nonneg (nbits : Z) : 0 ≤ use_nbytes nbits ↔ -8 < nbits.
Proof.
  unfold use_nbytes.
  destruct (Z.ltb_spec 0 (nbits mod 8)); Z.div_mod_to_equations; lia.
Qed.

Section keys.
Variable w92 : Base8xCodec.
Hypothesis Hw92 : w92codec = Ok w92.

Lemma genkeyfrom_Returned (size : Z) (w : world) :
  0 ≤ size →
  ∃ key,
    genkeyfrom size w
    = (Returned key,
       {| entropy := λ i, entropy w (i + Z.to_nat size)%nat;
          stdout := stdout w |})
    ∧ encode w92 (map (entropy w) (seq 0 (Z.to_nat size))) = Ok key.
Proof.
  intros Hsize. unfold genkeyfrom, os_urandom.
  destruct (Z.ltb_spec size 0) as [?|_]; [lia|].
  destruct (encode_spec _ w92 Hw92 (map (entropy w) (seq 0 (Z.to_nat size))))
    as (key & E & _).
  exists key. split; [|exact E].
  rewrite Hw92. cbn [mbind result_bind]. rewrite E. reflexivity.
Qed.

(** The loop of [use] on any variables: one line for each, with the key of
    the next block of entropy. *)
Lemma use_loop_Returned (vars : list (list ascii)) (nbytes : Z) (w : world) :
  0 ≤ nbytes →
  ∃ keys w',
    use_loop vars nbytes w = (Returned tt, w')
    ∧ stdout w' = stdout w ++ zip_with pronouncewpline vars keys
    ∧ (∀ i, entropy w' i
            = entropy w (i + length vars * Z.to_nat nbytes)%nat)
    ∧ Forall2 (λ k key,
                 encode w92
                   (map (entropy w)
                      (seq (k * Z.to_nat nbytes) (Z.to_nat nbytes)))
                 = Ok key)
        (seq 0 (length vars)) keys.
Proof.
  intros Hn. revert w. induction vars as [|var vars IH]; intros w.
  - exists [], w. cbn [use_loop zip_with length seq]. rewrite app_nil_r.
    repeat split; [intros i; f_equal; lia | constructor].
  - cbn [use_loop].
    destruct (genkeyfrom_Returned nbytes w Hn) as (key & -> & Hkey).
    edestruct IH as (keys & w' & -> & Hout & Hent & Hkeys).
    exists (key :: keys), w'. split; [reflexivity|].
    cbn [print stdout entropy] in Hout, Hent, Hkeys.
    split; [|split].
    + rewrite Hout, <- app_assoc. reflexivity.
    + intros i. rewrite Hent. cbn [length]. f_equal. lia.
    + cbn [length seq]. constructor; [exact Hkey|].
      rewrite <- seq_shift. apply Forall2_fmap_l.
      eapply Forall2_impl; [exact Hkeys|].
      intros k key' Hk. cbn beta in Hk. unfold compose.
      rewrite map_seq_shift in Hk.
      replace (S k * Z.to_nat nbytes)%nat
        with (k * Z.to_nat nbytes + Z.to_nat nbytes)%nat by lia.
      exact Hk.
Qed.

End keys.

(** X18.  [genkeyfrom] loses no entropy: for a size that is not negative it
    takes the next [size] bytes of the entropy supply, prints nothing, and
    returns a key from which [w92codec] decodes exactly these bytes.  The key
    has the encoded length of [size] bytes and holds neither a quote nor a
    backslash.  A negative size raises the error of [os.urandom]. *)
Theorem genkeyfrom_lossless (size : Z) (w : world) :
  (0 ≤ size →
   ∃ w92 key w',
     w92codec = Ok w92
     ∧ genkeyfrom size w = (Returned key, w')
     ∧ decode w92 key = Ok (map (entropy w) (seq 0 (Z.to_nat size)))
     ∧ length key = spec_encoded_length (Z.to_nat size)
     ∧ ("'"%char ∉ key) ∧ ("\"%char ∉ key)
     ∧ stdout w' = stdout w
     ∧ ∀ i, entropy w' i = entropy w (i + Z.to_nat size)%nat)
  ∧ (size < 0 → genkeyfrom size w = (Raised UrandomNegative, w)).
Proof.
  split.
  - intros Hsize. destruct w92codec_constructed as [w92 Hw92].
    destruct (genkeyfrom_Returned w92 Hw92 size w Hsize) as (key & Hg & Hkey).
    destruct (encode_spec _ w92 Hw92 (map (entropy w) (seq 0 (Z.to_nat size))))
      as (key2 & E2 & D2 & A2 & L1).
    rewrite Hkey in E2. injection E2 as <-.
    rewrite List.length_map, List.length_seq, encoded_length_spec in L1.
    eexists w92, key, _. split; [exact Hw92|]. split; [exact Hg|].
    split; [exact D2|]. split; [exact L1|].
    assert (∀ c, c ∉ list_ascii_of_string
                       ("0123456789abcdefghijklmnopqrstuvwxyz"
                        ++ "ABCDEFGHIJKLMNOPQRSTUVWXYZ"
                        ++ "`,~| _;.-:+=^!/*?&<>()[]{}@%$#") → c ∉ key)
      as Hout.
    { intros c Hc Hin. apply Hc.
      exact (proj1 (Forall_forall _ _) A2 c Hin). }
    split; [apply Hout; by_evaluation|].
    split; [apply Hout; by_evaluation|].
    split; [reflexivity|]. intros i. reflexivity.
  - intros Hsize. unfold genkeyfrom, os_urandom.
    destruct (Z.ltb_spec size 0) as [_|?]; [reflexivity | lia].
Qed.

(** X19.  For more than -8 bits [use] returns normally after printing eight
    lines, one for each variable of [WPVARS] in order; the key of the [k]-th
    line encodes the [k]-th block of [use_nbytes nbits] entropy bytes, so
    every key was made from fresh bytes, and eight blocks are consumed. *)
Theorem use_prints_eight_keys (nbits : Z) (w : world) :
  -8 < nbits →
  ∃ w92 keys w',
    w92codec = Ok w92
    ∧ use nbits w = (Returned tt, w')
    ∧ length keys = 8%nat
    ∧ stdout w' = stdout w ++ zip_with pronouncewpline WPVARS keys
    ∧ Forall2 (λ k key,
                 encode w92
                   (map (entropy w)
                      (seq (k * Z.to_nat (use_nbytes nbits))
                         (Z.to_nat (use_nbytes nbits))))
                 = Ok key)
        (seq 0 8) keys
    ∧ ∀ i, entropy w' i
           = entropy w (i + 8 * Z.to_nat (use_nbytes nbits))%nat.
Proof.
  intros Hbits. destruct w92codec_constructed as [w92 Hw92].
  assert (0 ≤ use_nbytes nbits) as Hn by (apply use_nbytes_nonneg; lia).
  destruct (use_loop_Returned w92 Hw92 WPVARS (use_nbytes nbits) w Hn)
    as (keys & w' & Hu & Hout & Hent & Hkeys).
  exists w92, keys, w'. split; [exact Hw92|]. split; [exact Hu|].
  change (length WPVARS) with 8%nat in *.
  split; [|split; [exact Hout|split; [exact Hkeys | exact Hent]]].
  apply Forall2_length in Hkeys. rewrite <- Hkeys. reflexivity.
Qed.

Lemma use_prints_eight_keys_witness :
  ∃ w',
    use 320 {| entropy := λ i, x00; stdout := [] |} = (Returned tt, w')
    ∧ length (stdout w') = 8%nat.
Proof.
  destruct (use_prints_eight_keys 320 {| entropy := λ i, x00; stdout := [] |}
              ltac:(lia)) as (w92 & keys & w' & _ & Hu & Hlen & Hout & _).
  exists w'. split; [exact Hu|].
  rewrite Hout. cbn [stdout app]. rewrite length_zip_with.
  rewrite Hlen. reflexivity.
Defined.

(** X20.  For -8 bits or fewer [use] raises the error of [os.urandom]
    before it prints anything, and the world is left as it was. *)
Theorem use_negative_size (nbits : Z) (w : world) :
  nbits ≤ -8 →
  use nbits w = (Raised UrandomNegative, w).
Proof.
  intros Hbits. unfold use.
  assert (use_nbytes nbits < 0) as Hn.
  { pose proof (use_nbytes_nonneg nbits). 
    destruct (Z.lt_ge_cases (use_nbytes nbits) 0); [assumption | lia]. }
  change WPVARS with (hd [] WPVARS :: tl WPVARS). cbn [use_loop].
  unfold genkeyfrom, os_urandom.
  destruct (Z.ltb_spec (use_nbytes nbits) 0) as [_|?]; [reflexivity | lia].
Qed.

Lemma use_negative_size_witness :
  use (-8) {| entropy := λ i, x00; stdout := [] |}
  = (Raised UrandomNegative, {| entropy := λ i, x00; stdout := [] |}).
Proof.
  exact (use_negative_size (-8) {| entropy := λ i, x00; stdout := [] |}
           ltac:(lia)).
Defined.
